(** * The token-file credential provider of the vault secrets operator

    A shallow embedding of [TokenCredentialProvider] (package [vault]): the
    provider reads a pre-issued Vault token from a local file, trims it and
    hands it out as the credential map [{"token": <token>}].

    Layout of the development:
    - Go values: strings are byte sequences ([string], one [ascii] per
      byte), [[]byte] is [list Byte.byte], [int] indices are [nat] where
      they cannot be negative and [Z] where the code lets them go below
      zero, runes are [Z]; a pointer is an [option], [None] for [nil];
    - the parts of the Go standard library the provider calls, down to the
      bytes: [utf8.DecodeRuneInString], [utf8.DecodeLastRuneInString],
      [unicode.IsSpace], [strings.TrimSpace], [fmt.Errorf], [os.ReadFile];
    - the provider itself, in a small state monad over the receiver and the
      outside world (the files, and the trace of file reads and log lines),
      with an outcome of its own for the nil-pointer panic;
    - the vocabulary of the properties: white space in a string of bytes,
      the kinds of error, the fixtures of the test suite;
    - the properties: what the decoders and [strings.TrimSpace] compute,
      then the provider, with the tests of the repository run on the
      embedding. *)

From Stdlib Require Import ZArith Lia Bool Ascii String List.
From stdpp Require Import base option gmap strings.

Local Open Scope Z_scope.

(* stdpp keeps [String.append] folded; here it computes on literals. *)
#[local] Arguments String.append !_ _ / : simpl nomatch.

(** ** Go strings as byte sequences *)

(** The numeric value of a byte of a string, [0 <= byte_val c < 256]. *)
Definition byte_val (c : ascii) : Z := Z.of_N (N_of_ascii c).

(** The byte of value [z mod 256]: the conversion [byte(z)]. *)
Definition byte_of (z : Z) : ascii := ascii_of_N (Z.to_N (z mod 256)).

(** [len(s)] *)
Definition len (s : string) : nat := String.length s.

(** [s[i]], for an index the code has already checked to be in range. *)
Definition at_ (s : string) (i : nat) : Z :=
  match String.get i s with
  | Some c => byte_val c
  | None => 0
  end.

(** [s[n:]] *)
Fixpoint drop_bytes (n : nat) (s : string) : string :=
  match n, s with
  | O, _ => s
  | S n', String _ s' => drop_bytes n' s'
  | S _, EmptyString => EmptyString
  end.

(** [s[:n]] *)
Fixpoint take_bytes (n : nat) (s : string) : string :=
  match n, s with
  | O, _ => EmptyString
  | S n', String c s' => String c (take_bytes n' s')
  | S _, EmptyString => EmptyString
  end.

(** [s[i:j]] *)
Definition slice (s : string) (i j : nat) : string :=
  take_bytes (j - i) (drop_bytes i s).

(** ** Package [unicode/utf8] *)
Module Utf8.

Definition RuneError : Z := 0xFFFD.
Definition RuneSelf : Z := 0x80.
Definition UTFMax : nat := 4.

Definition maskx : Z := 0x3F.
Definition mask2 : Z := 0x1F.
Definition mask3 : Z := 0x0F.
Definition mask4 : Z := 0x07.

Definition locb : Z := 0x80.
Definition hicb : Z := 0xBF.

(** Information about the first byte of an encoding: the low three bits
    are the length, the high four bits index [acceptRanges]. *)
Definition xx : Z := 0xF1.
Definition as_ : Z := 0xF0.
Definition s1 : Z := 0x02.
Definition s2 : Z := 0x13.
Definition s3 : Z := 0x03.
Definition s4 : Z := 0x23.
Definition s5 : Z := 0x34.
Definition s6 : Z := 0x04.
Definition s7 : Z := 0x44.

(** The table [first[256]], row by row. *)
Definition first (b : Z) : Z :=
  if b <? 0x80 then as_        (* 0x00-0x7F *)
  else if b <? 0xC2 then xx    (* 0x80-0xC1 *)
  else if b <? 0xE0 then s1    (* 0xC2-0xDF *)
  else if b =? 0xE0 then s2
  else if b <? 0xED then s3    (* 0xE1-0xEC *)
  else if b =? 0xED then s4
  else if b <? 0xF0 then s3    (* 0xEE-0xEF *)
  else if b =? 0xF0 then s5
  else if b <? 0xF4 then s6    (* 0xF1-0xF3 *)
  else if b =? 0xF4 then s7
  else xx.                     (* 0xF5-0xFF *)

Record acceptRange := { lo : Z; hi : Z }.

(** [acceptRanges[16]]; the entries past the fifth are zero. *)
Definition acceptRanges (i : Z) : acceptRange :=
  match i with
  | 0 => {| lo := locb; hi := hicb |}
  | 1 => {| lo := 0xA0; hi := hicb |}
  | 2 => {| lo := locb; hi := 0x9F |}
  | 3 => {| lo := 0x90; hi := hicb |}
  | 4 => {| lo := locb; hi := 0x8F |}
  | _ => {| lo := 0; hi := 0 |}
  end.

(** Two's-complement wrap of an [int32]. *)
Definition int32 (z : Z) : Z := (z + 2 ^ 31) mod 2 ^ 32 - 2 ^ 31.

(** [DecodeRuneInString(s)]: the first rune of [s] and its width in
    bytes; [(RuneError, 0)] on the empty string and [(RuneError, 1)] on
    an invalid encoding. *)
Definition DecodeRuneInString (s : string) : Z * nat :=
  let n := len s in
  if (n <? 1)%nat then (RuneError, 0%nat) else
  let s0 := at_ s 0 in
  let x := first s0 in
  if x >=? as_ then
    (* mask := rune(x) << 31 >> 31, all zeros or all ones *)
    let mask := Z.shiftr (int32 (Z.shiftl x 31)) 31 in
    (Z.lor (Z.land s0 (Z.lnot mask)) (Z.land RuneError mask), 1%nat)
  else
  let sz := Z.to_nat (Z.land x 7) in
  let accept := acceptRanges (Z.shiftr x 4) in
  if (n <? sz)%nat then (RuneError, 1%nat) else
  let s1 := at_ s 1 in
  if (s1 <? lo accept) || (hi accept <? s1) then (RuneError, 1%nat) else
  if (sz <=? 2)%nat then
    (Z.lor (Z.shiftl (Z.land s0 mask2) 6) (Z.land s1 maskx), 2%nat)
  else
  let s2 := at_ s 2 in
  if (s2 <? locb) || (hicb <? s2) then (RuneError, 1%nat) else
  if (sz <=? 3)%nat then
    (Z.lor (Z.lor (Z.shiftl (Z.land s0 mask3) 12)
                  (Z.shiftl (Z.land s1 maskx) 6))
           (Z.land s2 maskx), 3%nat)
  else
  let s3 := at_ s 3 in
  if (s3 <? locb) || (hicb <? s3) then (RuneError, 1%nat) else
  (Z.lor (Z.lor (Z.lor (Z.shiftl (Z.land s0 mask4) 18)
                       (Z.shiftl (Z.land s1 maskx) 12))
                (Z.shiftl (Z.land s2 maskx) 6))
         (Z.land s3 maskx), 4%nat).

(** [RuneStart(b)]: [b] is not a continuation byte. *)
Definition RuneStart (b : Z) : bool :=
  negb (Z.land b 0xC0 =? 0x80).

(** The loop of [DecodeLastRuneInString] that backs up to the start of
    the last rune: [for start--; start >= lim; start--], entered with
    [start] already decremented and [k = start - lim + 1] candidate
    positions left. *)
Fixpoint backup (k : nat) (s : string) (start : Z) : Z :=
  match k with
  | O => start
  | S k' =>
      if RuneStart (at_ s (Z.to_nat start)) then start
      else backup k' s (start - 1)
  end.

(** [DecodeLastRuneInString(s)]: the last rune of [s] and its width. *)
Definition DecodeLastRuneInString (s : string) : Z * nat :=
  let end_ := Z.of_nat (len s) in
  if end_ =? 0 then (RuneError, 0%nat) else
  let start := end_ - 1 in
  let r := at_ s (Z.to_nat start) in
  if r <? RuneSelf then (r, 1%nat) else
  let lim := end_ - Z.of_nat UTFMax in
  let lim := if lim <? 0 then 0 else lim in
  let start := backup (Z.to_nat (start - 1 - lim + 1)) s (start - 1) in
  let start := if start <? 0 then 0 else start in
  let '(r, size) :=
    DecodeRuneInString (slice s (Z.to_nat start) (Z.to_nat end_)) in
  if negb (start + Z.of_nat size =? end_) then (RuneError, 1%nat)
  else (r, size).

(** Limits and marker bits of the encoder. *)
Definition rune1Max : Z := 0x7F.
Definition rune2Max : Z := 0x7FF.
Definition rune3Max : Z := 0xFFFF.
Definition MaxRune : Z := 0x10FFFF.
Definition surrogateMin : Z := 0xD800.
Definition surrogateMax : Z := 0xDFFF.
Definition tx : Z := 0x80.
Definition t2 : Z := 0xC0.
Definition t3 : Z := 0xE0.
Definition t4 : Z := 0xF0.

(** The three bytes of a rune between [rune2Max] and [rune3Max]. *)
Definition encode3 (r : Z) : string :=
  String (byte_of (Z.lor t3 (Z.shiftr r 12)))
    (String (byte_of (Z.lor tx (Z.land (Z.shiftr r 6) maskx)))
       (String (byte_of (Z.lor tx (Z.land r maskx))) "")).

(** [utf8.EncodeRune]: the UTF-8 encoding of the rune [r], as the
    string of its bytes. *)
Definition EncodeRune (r : Z) : string :=
  let i := r mod 2 ^ 32 in
  if i <=? rune1Max then String (byte_of r) ""
  else if i <=? rune2Max then
    String (byte_of (Z.lor t2 (Z.shiftr r 6)))
      (String (byte_of (Z.lor tx (Z.land r maskx))) "")
  else if (MaxRune <? i) || ((surrogateMin <=? i) && (i <=? surrogateMax))
  then encode3 RuneError
  else if i <=? rune3Max then encode3 r
  else
    String (byte_of (Z.lor t4 (Z.shiftr r 18)))
      (String (byte_of (Z.lor tx (Z.land (Z.shiftr r 12) maskx)))
         (String (byte_of (Z.lor tx (Z.land (Z.shiftr r 6) maskx)))
            (String (byte_of (Z.lor tx (Z.land r maskx))) ""))).

End Utf8.

(** ** Package [unicode] *)
Module Unicode.

Definition MaxLatin1 : Z := 0xFF.

Record Range16 := { Lo : Z; Hi : Z; Stride : Z }.

(** The 16-bit ranges of the [White_Space] table. *)
Definition White_Space_R16 : list Range16 :=
  [ {| Lo := 0x0009; Hi := 0x000d; Stride := 1 |};
    {| Lo := 0x0020; Hi := 0x0020; Stride := 1 |};
    {| Lo := 0x0085; Hi := 0x0085; Stride := 1 |};
    {| Lo := 0x00a0; Hi := 0x00a0; Stride := 1 |};
    {| Lo := 0x1680; Hi := 0x1680; Stride := 1 |};
    {| Lo := 0x2000; Hi := 0x200a; Stride := 1 |};
    {| Lo := 0x2028; Hi := 0x2029; Stride := 1 |};
    {| Lo := 0x202f; Hi := 0x202f; Stride := 1 |};
    {| Lo := 0x205f; Hi := 0x205f; Stride := 1 |};
    {| Lo := 0x3000; Hi := 0x3000; Stride := 1 |} ].

(** Number of leading entries of the table that lie in Latin-1. *)
Definition White_Space_LatinOffset : nat := 4.

(** Membership of a rune in a list of ranges (the search of [is16]). *)
Definition is16 (ranges : list Range16) (r : Z) : bool :=
  existsb (fun range_ =>
             (Lo range_ <=? r) && (r <=? Hi range_)
             && ((r - Lo range_) mod Stride range_ =? 0)) ranges.

(** [isExcludingLatin(White_Space, r)]: the table has no 32-bit ranges,
    so only runes up to the [Hi] of its last 16-bit range are searched
    (the comparison is on [uint32(r)], which excludes negative runes). *)
Definition isExcludingLatin_White_Space (r : Z) : bool :=
  let r16 := White_Space_R16 in
  let off := White_Space_LatinOffset in
  if (off <? length r16)%nat && (0 <=? r)
     && (r <=? Hi (List.last r16 {| Lo := 0; Hi := 0; Stride := 1 |}))
  then is16 (skipn off r16) r
  else false.

(** [IsSpace(r)]: white space as defined by Unicode's White Space
    property; in Latin-1 these are tab, newline, vertical tab, form feed,
    carriage return, space, U+0085 (NEL) and U+00A0 (NBSP). *)
Definition IsSpace (r : Z) : bool :=
  if (0 <=? r) && (r <=? MaxLatin1) then
    (r =? 9) || (r =? 10) || (r =? 11) || (r =? 12) || (r =? 13)
    || (r =? 32) || (r =? 0x85) || (r =? 0xA0)
  else isExcludingLatin_White_Space r.

End Unicode.

(** ** Package [strings] *)
Module Strings.

(** The table [asciiSpace]: tab, newline, vertical tab, form feed,
    carriage return and space. *)
Definition asciiSpace (c : Z) : bool :=
  (c =? 9) || (c =? 10) || (c =? 11) || (c =? 12) || (c =? 13) || (c =? 32).

(** [for i, r := range s { if f(r) == truth { return i } }] of
    [indexFunc], started at byte offset [i] with [rest = s[i:]]. One unit
    of [fuel] is spent per rune. [None] stands for the result [-1]. *)
Fixpoint indexFunc_loop (fuel : nat) (rest : string) (f : Z -> bool)
    (truth : bool) (i : nat) : option nat :=
  match fuel with
  | O => None
  | S fuel' =>
      if (len rest =? 0)%nat then None else
      let '(r, size) := Utf8.DecodeRuneInString rest in
      if Bool.eqb (f r) truth then Some i
      else indexFunc_loop fuel' (drop_bytes size rest) f truth (i + size)
  end.

Definition indexFunc (s : string) (f : Z -> bool) (truth : bool)
    : option nat :=
  indexFunc_loop (len s) s f truth 0.

(** [for i := len(s); i > 0; { ... }] of [lastIndexFunc]. *)
Fixpoint lastIndexFunc_loop (fuel : nat) (s : string) (f : Z -> bool)
    (truth : bool) (i : nat) : option nat :=
  match fuel with
  | O => None
  | S fuel' =>
      if (0 <? i)%nat then
        let '(r, size) := Utf8.DecodeLastRuneInString (slice s 0 i) in
        let i := (i - size)%nat in
        if Bool.eqb (f r) truth then Some i
        else lastIndexFunc_loop fuel' s f truth i
      else None
  end.

Definition lastIndexFunc (s : string) (f : Z -> bool) (truth : bool)
    : option nat :=
  lastIndexFunc_loop (len s) s f truth (len s).

(** [TrimLeftFunc(s, f)] *)
Definition TrimLeftFunc (s : string) (f : Z -> bool) : string :=
  match indexFunc s f false with
  | None => ""
  | Some i => drop_bytes i s
  end.

(** [TrimRightFunc(s, f)] *)
Definition TrimRightFunc (s : string) (f : Z -> bool) : string :=
  let i :=
    match lastIndexFunc s f false with
    | Some i =>
        if at_ s i >=? Utf8.RuneSelf then
          let '(_, wid) := Utf8.DecodeRuneInString (drop_bytes i s) in
          (i + wid)%nat
        else (i + 1)%nat
    | None => 0%nat (* i = -1; i++ *)
    end in
  slice s 0 i.

(** [TrimFunc(s, f)] *)
Definition TrimFunc (s : string) (f : Z -> bool) : string :=
  TrimRightFunc (TrimLeftFunc s f) f.

(** Second loop of [TrimSpace], on [u = s[start:]]: look for the first
    ASCII non-space byte from the end; [stop] counts from [start]. *)
Fixpoint TrimSpace_stop (u : string) (stop : nat) : string :=
  match stop with
  | O => slice u 0 0
  | S stop' =>
      let c := at_ u stop' in
      if c >=? Utf8.RuneSelf then
        TrimRightFunc (slice u 0 stop) Unicode.IsSpace
      else if negb (asciiSpace c) then slice u 0 stop
      else TrimSpace_stop u stop'
  end.

(** First loop of [TrimSpace], on the not yet examined suffix
    [rest = s[start:]]: skip ASCII spaces; on a non-ASCII byte fall back
    to the Unicode-aware [TrimFunc] on the remaining bytes. *)
Fixpoint TrimSpace_start (rest : string) : string :=
  match rest with
  | EmptyString => TrimSpace_stop rest (len rest)
  | String c0 rest' =>
      let c := byte_val c0 in
      if c >=? Utf8.RuneSelf then TrimFunc rest Unicode.IsSpace
      else if negb (asciiSpace c) then TrimSpace_stop rest (len rest)
      else TrimSpace_start rest'
  end.

(** [TrimSpace(s)]: [s] with all leading and trailing white space
    removed, as defined by Unicode. *)
Definition TrimSpace (s : string) : string := TrimSpace_start s.

End Strings.

(** ** Errors *)

(** Error numbers of the operating system that a file read reports. *)
Inductive Errno := ENOENT | EACCES | EISDIR | EIO.

(** The error values the provider meets: [errors.New] strings, the
    [*fmt.wrapError] that [fmt.Errorf] builds for a [%w] verb, the
    [*fs.PathError] of package [os], and [syscall.Errno]. *)
Inductive error :=
| errorString (s : string)
| wrapError (msg : string) (err : error)
| PathError (Op Path : string) (Err : error)
| SyscallErrno (e : Errno).

Definition Errno_text (e : Errno) : string :=
  match e with
  | ENOENT => "no such file or directory"
  | EACCES => "permission denied"
  | EISDIR => "is a directory"
  | EIO => "input/output error"
  end.

(** The method [Error()]. *)
Fixpoint Error (e : error) : string :=
  match e with
  | errorString s => s
  | wrapError msg _ => msg
  | PathError op path err => op +:+ " " +:+ path +:+ ": " +:+ Error err
  | SyscallErrno e => Errno_text e
  end.

(** The method [Unwrap()], as [errors.Unwrap] sees it. *)
Definition Unwrap (e : error) : option error :=
  match e with
  | wrapError _ err => Some err
  | PathError _ _ err => Some err
  | _ => None
  end.

(** ** Package [fmt] *)
Module Fmt.

(** Operands of the formatting calls of the provider. *)
Inductive arg := AString (s : string) | AError (e : error).

Definition print_arg (a : arg) : string :=
  match a with
  | AString s => s
  | AError e => Error e
  end.

(** [doPrintf] for the verbs the provider uses: [%s] and [%w] print
    the operand ([%w] through its [Error] method); other bytes are
    copied. *)
Fixpoint doPrintf (format : string) (a : list arg) : string :=
  match format with
  | EmptyString => ""
  | String "%" (String verb rest) =>
      match a with
      | x :: a' => print_arg x +:+ doPrintf rest a'
      | [] => "%!" +:+ String verb ("(MISSING)" +:+ doPrintf rest [])
      end
  | String c rest => String c (doPrintf rest a)
  end.

(** The operands of the [%w] verbs that are errors. *)
Fixpoint wrappedErrs (format : string) (a : list arg) : list error :=
  match format with
  | EmptyString => []
  | String "%" (String verb rest) =>
      match a with
      | x :: a' =>
          match verb, x with
          | "w"%char, AError e => e :: wrappedErrs rest a'
          | _, _ => wrappedErrs rest a'
          end
      | [] => []
      end
  | String _ rest => wrappedErrs rest a
  end.

(** [fmt.Errorf]: [errors.New] of the text when no operand is wrapped,
    a [wrapError] around the operand of [%w] otherwise (no call of the
    provider has more than one [%w]). *)
Definition Errorf (format : string) (a : list arg) : error :=
  let s := doPrintf format a in
  match wrappedErrs format a with
  | [] => errorString s
  | e :: _ => wrapError s e
  end.

End Fmt.

(** ** The outside world: files and the log *)

(** A path the file system knows is either a readable file with its bytes
    or something whose read fails with a cause (permission denied, a
    directory, an I/O error, ...). *)
Inductive file :=
| Contents (data : list Byte.byte)
| Unreadable (cause : error).

(** What the provider does to the world, in order. *)
Inductive event :=
| EvReadFile (name : string)
| EvLogError (err : error) (msg : string).

(** The file system maps paths to files; a path it does not know does not
    exist. The trace records the reads and log lines so far. *)
Record World := {
  files : gmap string file;
  trace : list event
}.

Definition record (e : event) (w : World) : World :=
  {| files := files w; trace := trace w ++ [e] |}.

(** ** The API types of [secretsv1beta1] the provider touches *)

Record VaultAuthConfigToken := { FilePath : string }.

(** [Token] is a pointer: [None] is [nil]. *)
Record VaultAuthSpec := {
  Method : string;
  Token : option VaultAuthConfigToken
}.

Record VaultAuth := { Spec : VaultAuthSpec }.

(** Modelled from the spec: the method [Validate] of
    [VaultAuthConfigToken] lives in package [api/v1beta1], which is not
    among the sources at hand. The specification gives it as a structural
    validation "that fails when [FilePath] is empty", and the tests of
    [Init] expect the cause to read "empty filePath". *)
Definition Validate (a : VaultAuthConfigToken) : option error :=
  if String.eqb (FilePath a) "" then Some (errorString "empty filePath")
  else None.

(** Package [consts]. *)
Module Consts.
Definition ProviderSecretKeyAppRole : string := "id".
Definition ProviderSecretKeyJWT : string := "jwt".
Definition ProviderSecretKeyToken : string := "token".
Definition ProviderMethodKubernetes : string := "kubernetes".
Definition ProviderMethodJWT : string := "jwt".
Definition ProviderMethodAppRole : string := "appRole".
Definition ProviderMethodAWS : string := "aws".
Definition ProviderMethodGCP : string := "gcp".
Definition ProviderMethodToken : string := "token".
End Consts.

(** [types.UID] *)
Definition UID := string.

(** [context.Context] and [ctrlclient.Client]: the provider passes them
    along and takes nothing from them but the logger. *)
Inductive Context : Set := context_Background.
Inductive Client : Set := fake_Client.

(** The values stored under [interface{}] in a credential map. *)
Inductive interface := iface_string (s : string).

(** ** The provider *)

Record TokenCredentialProvider := {
  authObj : option VaultAuth;          (* pointer, [None] is [nil] *)
  providerNamespace : string;
  uid : UID
}.

(** [&TokenCredentialProvider{}] *)
Definition empty_provider : TokenCredentialProvider :=
  {| authObj := None; providerNamespace := ""; uid := "" |}.

Definition NewTokenCredentialProvider (authObj : option VaultAuth)
    (providerNamespace : string) (uid : UID) : TokenCredentialProvider :=
  {| authObj := authObj;
     providerNamespace := providerNamespace;
     uid := uid |}.

(** *** Methods run in a state monad

    A method call starts from the receiver [t] and the world, and either
    returns a value or panics; both leave a receiver and a world behind. *)

Inductive outcome (A : Type) :=
| Returned (a : A)
| Panicked (msg : string).
Arguments Returned {A} a.
Arguments Panicked {A} msg.

Definition M (A : Type) : Type :=
  TokenCredentialProvider -> World ->
  outcome A * TokenCredentialProvider * World.

#[global] Instance M_ret : MRet M := fun A a t w => (Returned a, t, w).

#[global] Instance M_bind : MBind M := fun A B f m t w =>
  match m t w with
  | (Returned a, t', w') => f a t' w'
  | (Panicked msg, t', w') => (Panicked msg, t', w')
  end.

(** Read the receiver. *)
Definition this : M TokenCredentialProvider := fun t w => (Returned t, t, w).

(** Assign the fields of the receiver. *)
Definition set_authObj (a : option VaultAuth) : M unit := fun t w =>
  (Returned tt,
   {| authObj := a; providerNamespace := providerNamespace t; uid := uid t |},
   w).

Definition set_providerNamespace (ns : string) : M unit := fun t w =>
  (Returned tt,
   {| authObj := authObj t; providerNamespace := ns; uid := uid t |}, w).

Definition set_uid (u : UID) : M unit := fun t w =>
  (Returned tt,
   {| authObj := authObj t;
      providerNamespace := providerNamespace t;
      uid := u |}, w).

Definition nil_dereference : string :=
  "runtime error: invalid memory address or nil pointer dereference".

(** Follow a pointer; [nil] panics. *)
Definition deref {A : Type} (p : option A) : M A := fun t w =>
  match p with
  | Some a => (Returned a, t, w)
  | None => (Panicked nil_dereference, t, w)
  end.

(** What [os.ReadFile(name)] returns in world [w]: no file lives at the
    empty name and none at a path the file system does not know ([open]
    fails with [ENOENT]); a known path yields its bytes or its cause of
    failure. *)
Definition read_file (w : World) (name : string)
    : list Byte.byte * option error :=
  if String.eqb name "" then
    ([], Some (PathError "open" name (SyscallErrno ENOENT)))
  else
    match files w !! name with
    | Some (Contents data) => (data, None)
    | Some (Unreadable cause) => ([], Some cause)
    | None => ([], Some (PathError "open" name (SyscallErrno ENOENT)))
    end.

(** [os.ReadFile(name)]; the read is recorded in the trace. *)
Definition os_ReadFile (name : string) : M (list Byte.byte * option error) :=
  fun t w => (Returned (read_file w name), t, record (EvReadFile name) w).

(** [log.FromContext(ctx).Error(err, msg)] *)
Definition logger_Error (ctx : Context) (err : error) (msg : string)
    : M unit := fun t w =>
  (Returned tt, t, record (EvLogError err msg) w).

(** *** The methods *)

Definition GetNamespace : M string :=
  t ← this; mret (providerNamespace t).

Definition GetUID : M UID :=
  t ← this; mret (uid t).

Definition readTokenFile : M (string * option error) :=
  t ← this;
  authObj ← deref (authObj t);
  token ← deref (Token (Spec authObj));
  let filePath := FilePath token in
  if String.eqb filePath "" then
    mret ("", Some (Fmt.Errorf "file path is empty" []))
  else
  '(data, err) ← os_ReadFile filePath;
  match err with
  | Some err =>
      mret ("", Some (Fmt.Errorf "failed to read token file %s: %w"
                        [Fmt.AString filePath; Fmt.AError err]))
  | None =>
      let token := Strings.TrimSpace (string_of_list_byte data) in
      if String.eqb token "" then
        mret ("", Some (Fmt.Errorf
                          "token file %s is empty or contains only whitespace"
                          [Fmt.AString filePath]))
      else mret (token, None)
  end.

Definition Init (ctx : Context) (client : Client)
    (authObj : option VaultAuth) (providerNamespace : string)
    : M (option error) :=
  a ← deref authObj;
  match Token (Spec a) with
  | None => mret (Some (Fmt.Errorf "token auth method not configured" []))
  | Some token =>
      match Validate token with
      | Some err =>
          mret (Some (Fmt.Errorf "invalid token auth configuration: %w"
                        [Fmt.AError err]))
      | None =>
          set_authObj authObj;;
          set_providerNamespace providerNamespace;;
          (* Try to read the file to validate it exists and is readable *)
          '(_, err) ← readTokenFile;
          match err with
          | Some err => mret (Some err)
          | None =>
              (* a static UID: the provider is not tied to a resource *)
              set_uid "token-file-provider";;
              mret None
          end
      end
  end.

(** The credential map is a pointer-like value: [None] is the [nil] map. *)
Definition GetCreds (ctx : Context) (client : Client)
    : M (option (gmap string interface) * option error) :=
  '(token, err) ← readTokenFile;
  match err with
  | Some err =>
      logger_Error ctx err "Failed to read token from file";;
      mret (None, Some err)
  | None =>
      (* credentials needed for token auth - just the token value *)
      mret (Some {[ "token" := iface_string token ]}, None)
  end.

(** * Vocabulary of the properties *)

Import Utf8 Strings.

(** ** Strings and white space *)

(** [Contains s substr]: what [strings.Contains] and the [assert.Contains]
    of the tests decide. *)
Definition Contains (s substr : string) : Prop :=
  exists pre post : string, s = pre +:+ substr +:+ post.

(** The newline and the tab, as strings of one byte. *)
Definition LF : string := String "010" "".
Definition TAB : string := String "009" "".

(** The runes with the White Space property. *)
Definition white_space_runes : list Z :=
  [ 0x09; 0x0A; 0x0B; 0x0C; 0x0D; 0x20; 0x85; 0xA0; 0x1680;
    0x2000; 0x2001; 0x2002; 0x2003; 0x2004; 0x2005; 0x2006; 0x2007;
    0x2008; 0x2009; 0x200A; 0x2028; 0x2029; 0x202F; 0x205F; 0x3000 ].

(** A string made of the UTF-8 encodings of white-space runes only. *)
Inductive white_space : string -> Prop :=
| white_space_nil : white_space ""
| white_space_cons (r : Z) (s : string) :
    Unicode.IsSpace r = true -> white_space s ->
    white_space (EncodeRune r +:+ s).

(** The string begins with the encoding of a white-space rune. *)
Definition starts_with_space (s : string) : Prop :=
  exists (r : Z) (rest : string),
    Unicode.IsSpace r = true /\ s = EncodeRune r +:+ rest.

(** The string ends with the encoding of a white-space rune. *)
Definition ends_with_space (s : string) : Prop :=
  exists (r : Z) (init : string),
    Unicode.IsSpace r = true /\ s = init +:+ EncodeRune r.

(** ** What the decoder accepts *)

(** A continuation byte of an encoding. *)
Definition cont (b : Z) : Prop := 0x80 <= b <= 0xBF.

(** The runes [DecodeRuneInString] assembles from two, three and four
    bytes. *)
Definition rune2 (b0 b1 : Z) : Z :=
  Z.lor (Z.shiftl (Z.land b0 mask2) 6) (Z.land b1 maskx).
Definition rune3 (b0 b1 b2 : Z) : Z :=
  Z.lor (Z.lor (Z.shiftl (Z.land b0 mask3) 12) (Z.shiftl (Z.land b1 maskx) 6))
        (Z.land b2 maskx).
Definition rune4 (b0 b1 b2 b3 : Z) : Z :=
  Z.lor (Z.lor (Z.lor (Z.shiftl (Z.land b0 mask4) 18)
                      (Z.shiftl (Z.land b1 maskx) 12))
               (Z.shiftl (Z.land b2 maskx) 6))
        (Z.land b3 maskx).

(** The byte sequences [DecodeRuneInString] accepts as the encoding of a
    rune of two, three and four bytes. *)
Definition valid2 (b0 b1 : Z) : Prop := 0xC2 <= b0 <= 0xDF /\ cont b1.

Definition valid3 (b0 b1 b2 : Z) : Prop :=
  ((b0 = 0xE0 /\ 0xA0 <= b1 <= 0xBF)
   \/ (0xE1 <= b0 <= 0xEC /\ cont b1)
   \/ (b0 = 0xED /\ 0x80 <= b1 <= 0x9F)
   \/ (0xEE <= b0 <= 0xEF /\ cont b1))
  /\ cont b2.

Definition valid4 (b0 b1 b2 b3 : Z) : Prop :=
  ((b0 = 0xF0 /\ 0x90 <= b1 <= 0xBF)
   \/ (0xF1 <= b0 <= 0xF3 /\ cont b1)
   \/ (b0 = 0xF4 /\ 0x80 <= b1 <= 0x8F))
  /\ cont b2 /\ cont b3.

(** The five ways [DecodeRuneInString] ends on a non-empty string of
    [n] bytes that starts with [b0 b1 b2 b3]. *)
Inductive decoded (n : nat) (b0 b1 b2 b3 : Z) : Z * nat -> Prop :=
| dec_ascii : b0 < 0x80 -> decoded n b0 b1 b2 b3 (b0, 1%nat)
| dec_invalid : 0x80 <= b0 -> decoded n b0 b1 b2 b3 (RuneError, 1%nat)
| dec_2 : (2 <= n)%nat -> valid2 b0 b1 ->
    decoded n b0 b1 b2 b3 (rune2 b0 b1, 2%nat)
| dec_3 : (3 <= n)%nat -> valid3 b0 b1 b2 ->
    decoded n b0 b1 b2 b3 (rune3 b0 b1 b2, 3%nat)
| dec_4 : (4 <= n)%nat -> valid4 b0 b1 b2 b3 ->
    decoded n b0 b1 b2 b3 (rune4 b0 b1 b2 b3, 4%nat).

(** The strings of one to four given bytes. *)
Definition bytes1 (b0 : Z) : string := String (byte_of b0) "".
Definition bytes2 (b0 b1 : Z) : string := String (byte_of b0) (bytes1 b1).
Definition bytes3 (b0 b1 b2 : Z) : string := String (byte_of b0) (bytes2 b1 b2).
Definition bytes4 (b0 b1 b2 b3 : Z) : string :=
  String (byte_of b0) (bytes3 b1 b2 b3).

(** Checking a decidable property on every integer of a range. *)
Fixpoint forall_from (k : nat) (lo : Z) (P : Z -> bool) : bool :=
  match k with
  | O => true
  | S k' => P lo && forall_from k' (lo + 1) P
  end.

Definition forall_range (lo hi : Z) (P : Z -> bool) : bool :=
  forall_from (Z.to_nat (hi - lo + 1)) lo P.

(** ** The errors of the provider *)

(** The code tells its failures apart by their text; these are the kinds
    of the error taxonomy, spelled out on the values the code builds. *)
Definition ConfigurationMissing : error :=
  errorString "token auth method not configured".

Definition ConfigurationInvalid (cause : error) : error :=
  wrapError ("invalid token auth configuration: " +:+ Error cause) cause.

Definition EmptyFilePath : error := errorString "file path is empty".

Definition FileUnreadable (filePath : string) (cause : error) : error :=
  wrapError
    ("failed to read token file " +:+ filePath +:+ ": " +:+ Error cause) cause.

Definition EmptyOrWhitespaceToken (filePath : string) : error :=
  errorString
    ("token file " +:+ filePath +:+ " is empty or contains only whitespace").

(** ** Calls of the provider *)

(** The token sub-configuration the receiver is bound to; [None] when
    [authObj] or its [Spec.Token] is [nil]. *)
Definition bound_token (t : TokenCredentialProvider)
    : option VaultAuthConfigToken :=
  match authObj t with
  | Some a => Token (Spec a)
  | None => None
  end.

(** The file at [name] exists, is readable and holds [data]. *)
Definition file_contents (w : World) (name : string)
    (data : list Byte.byte) : Prop :=
  name <> "" /\ files w !! name = Some (Contents data).

(** The value and the world a call of [readTokenFile] leaves behind, for
    a receiver bound to the token configuration [tok]. *)
Definition readTokenFile_result (w : World) (tok : VaultAuthConfigToken)
    : (string * option error) * World :=
  let filePath := FilePath tok in
  if String.eqb filePath "" then (("", Some EmptyFilePath), w)
  else
    let w' := record (EvReadFile filePath) w in
    match read_file w filePath with
    | (_, Some cause) => (("", Some (FileUnreadable filePath cause)), w')
    | (data, None) =>
        let token := Strings.TrimSpace (string_of_list_byte data) in
        if String.eqb token "" then
          (("", Some (EmptyOrWhitespaceToken filePath)), w')
        else ((token, None), w')
    end.

(** The pair [GetCreds] returns, when it returns. *)
Definition result {A : Type}
    (x : outcome A * TokenCredentialProvider * World) : outcome A :=
  fst (fst x).

(** [Init] returns an error. *)
Definition Init_fails (ctx : Context) (client : Client)
    (authObj0 : option VaultAuth) (ns : string)
    (t : TokenCredentialProvider) (w : World) : Prop :=
  exists (err : error) (t' : TokenCredentialProvider) (w' : World),
    Init ctx client authObj0 ns t w = (Returned (Some err), t', w').

(** [readTokenFile] returns an error. *)
Definition readTokenFile_fails (t : TokenCredentialProvider) (w : World)
    : Prop :=
  exists (s : string) (err : error) (t' : TokenCredentialProvider)
         (w' : World),
    readTokenFile t w = (Returned (s, Some err), t', w').

(** The receiver after a series of [GetCreds] calls, the i-th of them
    made in the i-th world of the list (the files may have changed in
    between). *)
Fixpoint after_GetCreds (ctx : Context) (client : Client)
    (worlds : list World) (t : TokenCredentialProvider)
    : TokenCredentialProvider :=
  match worlds with
  | [] => t
  | w :: worlds' =>
      after_GetCreds ctx client worlds' (snd (fst (GetCreds ctx client t w)))
  end.

(** ** Fixtures of the test suite *)

(** A [VaultAuth] of method "token" whose token configuration names
    [filePath]. *)
Definition token_auth (filePath : string) : VaultAuth :=
  {| Spec := {| Method := Consts.ProviderMethodToken;
                Token := Some {| FilePath := filePath |} |} |}.

(** A [VaultAuth] of method "token" with no token configuration. *)
Definition token_auth_missing : VaultAuth :=
  {| Spec := {| Method := Consts.ProviderMethodToken; Token := None |} |}.

Definition validTokenFile : string := "/tmp/token-test/valid-token".
Definition tokenWithWhitespaceFile : string :=
  "/tmp/token-test/token-with-whitespace".
Definition emptyTokenFile : string := "/tmp/token-test/empty-token".
Definition whitespaceTokenFile : string := "/tmp/token-test/whitespace-token".
Definition lockedTokenFile : string := "/tmp/token-test/locked-token".
Definition paddedTokenFile : string := "/tmp/token-test/padded-token".

(** The temporary directory of the tests; [lockedTokenFile] stands for a
    file the process may not read, [paddedTokenFile] holds the token
    between two spaces and a newline and a tab. *)
Definition test_world : World :=
  {| files :=
       {[ validTokenFile :=
            Contents (list_byte_of_string "vault-token-value");
          tokenWithWhitespaceFile :=
            Contents (list_byte_of_string
                        ("  vault-token-value" +:+ LF +:+ "  "));
          paddedTokenFile :=
            Contents (list_byte_of_string
                        ("  " +:+ "vault-token-value" +:+ LF +:+ TAB));
          emptyTokenFile := Contents [];
          whitespaceTokenFile :=
            Contents (list_byte_of_string ("   " +:+ LF +:+ TAB +:+ "  "));
          lockedTokenFile :=
            Unreadable (PathError "open" lockedTokenFile
                          (SyscallErrno EACCES)) ]};
     trace := [] |}.

Definition test_namespace : string := "test-provider-namespace".

(** The receiver the tests of [GetCreds] build. *)
Definition test_provider (filePath : string) : TokenCredentialProvider :=
  {| authObj := Some (token_auth filePath);
     providerNamespace := test_namespace;
     uid := "" |}.

(** ** White space as the specification lists it *)

(** The specification names the white space to trim: "spaces, tabs,
    newlines, carriage returns". The definitions of this section follow
    its words, to be compared with [Strings.TrimSpace], which the code
    calls. *)
Definition spec_whitespace (c : ascii) : bool :=
  let b := byte_val c in
  (b =? 32) || (b =? 9) || (b =? 10) || (b =? 13).

Fixpoint spec_trim_left (s : string) : string :=
  match s with
  | EmptyString => EmptyString
  | String c s' => if spec_whitespace c then spec_trim_left s' else s
  end.

Fixpoint spec_trim_right (s : string) : string :=
  match s with
  | EmptyString => EmptyString
  | String c s' =>
      match spec_trim_right s' with
      | EmptyString =>
          if spec_whitespace c then EmptyString else String c EmptyString
      | r => String c r
      end
  end.

(** The contents "with all leading and trailing whitespace (spaces, tabs,
    newlines, carriage returns) removed". *)
Definition spec_trim (s : string) : string :=
  spec_trim_right (spec_trim_left s).

(** ** Fixtures beyond the test suite *)

(** White space of several kinds: an ideographic space and a tab, a
    no-break space and a line feed. *)
Definition wide_pre : string := EncodeRune 0x3000 +:+ TAB.
Definition wide_post : string := EncodeRune 0xA0 +:+ LF.

(** A directory in which the valid token file holds the token between
    [wide_pre] and [wide_post]. *)
Definition wide_world : World :=
  {| files :=
       {[ validTokenFile :=
            Contents (list_byte_of_string
                        (wide_pre +:+ "vault-token-value" +:+ wide_post)) ]};
     trace := [] |}.

(** The vertical tab, as a string of one byte. *)
Definition VT : string := String "011" "".

Definition verticalTabTokenFile : string :=
  "/tmp/token-test/vertical-tab-token".
Definition paddedEmptyTokenFile : string :=
  "/tmp/token-test/padded-empty-token".

(** A directory with a token behind a vertical tab, an empty file, and
    the empty string between two spaces and a newline and a tab. *)
Definition whitespace_world : World :=
  {| files :=
       {[ verticalTabTokenFile :=
            Contents (list_byte_of_string (VT +:+ "tok"));
          emptyTokenFile := Contents (list_byte_of_string "");
          paddedEmptyTokenFile :=
            Contents (list_byte_of_string ("  " +:+ "" +:+ LF +:+ TAB)) ]};
     trace := [] |}.

(** * Properties *)

(** ** Strings *)

Lemma append_nil_r (s : string) : s +:+ "" = s.
Proof. induction s as [|c s IH]; cbn; [reflexivity | now rewrite IH]. Qed.

Lemma append_assoc (s1 s2 s3 : string) :
  (s1 +:+ s2) +:+ s3 = s1 +:+ (s2 +:+ s3).
Proof. induction s1 as [|c s1 IH]; cbn; [reflexivity | now rewrite IH]. Qed.

Lemma String_append (c : ascii) (s1 s2 : string) :
  String c s1 +:+ s2 = String c (s1 +:+ s2).
Proof. reflexivity. Qed.

Lemma len_append (s1 s2 : string) : len (s1 +:+ s2) = (len s1 + len s2)%nat.
Proof.
  unfold len. induction s1 as [|c s1 IH]; cbn; [reflexivity | now rewrite IH].
Qed.

Lemma len_0 (s : string) : len s = 0%nat -> s = "".
Proof. destruct s; [reflexivity | discriminate]. Qed.


(** ** Bytes *)

Lemma byte_val_range (c : ascii) : 0 <= byte_val c < 256.
Proof.
  unfold byte_val.
  destruct c as [[] [] [] [] [] [] [] []]; vm_compute; split; congruence.
Qed.

Lemma byte_of_val (c : ascii) : byte_of (byte_val c) = c.
Proof.
  unfold byte_of, byte_val.
  destruct c as [[] [] [] [] [] [] [] []]; reflexivity.
Qed.

Lemma byte_of_val_range (z : Z) : 0 <= z < 256 -> byte_val (byte_of z) = z.
Proof.
  intros H. unfold byte_of, byte_val.
  rewrite Z.mod_small by lia. rewrite N_ascii_embedding.
  - lia.
  - lia.
Qed.

(** ** Slices *)

Lemma drop_bytes_nil (n : nat) : drop_bytes n "" = "".
Proof. destruct n; reflexivity. Qed.

Lemma take_bytes_nil (n : nat) : take_bytes n "" = "".
Proof. destruct n; reflexivity. Qed.

Lemma take_drop (n : nat) (s : string) : take_bytes n s +:+ drop_bytes n s = s.
Proof.
  revert s. induction n as [|n IH]; intros [|c s]; cbn; try reflexivity.
  now rewrite IH.
Qed.

Lemma len_take (n : nat) (s : string) :
  (n <= len s)%nat -> len (take_bytes n s) = n.
Proof.
  unfold len. revert s.
  induction n as [|n IH]; intros [|c s]; cbn; try reflexivity; try lia.
  intros H. rewrite IH; lia.
Qed.

Lemma len_drop (n : nat) (s : string) : len (drop_bytes n s) = (len s - n)%nat.
Proof.
  unfold len. revert s.
  induction n as [|n IH]; intros [|c s]; cbn; try reflexivity; try lia.
  apply IH.
Qed.

Lemma take_all (n : nat) (s : string) : (len s <= n)%nat -> take_bytes n s = s.
Proof.
  unfold len. revert s.
  induction n as [|n IH]; intros [|c s]; cbn; try reflexivity; try lia.
  intros H. rewrite IH; [reflexivity | lia].
Qed.

Lemma drop_all (n : nat) (s : string) : (len s <= n)%nat -> drop_bytes n s = "".
Proof.
  unfold len. revert s.
  induction n as [|n IH]; intros [|c s]; cbn; try reflexivity; try lia.
  intros H. apply IH. lia.
Qed.

Lemma take_app (n : nat) (s1 s2 : string) :
  (n <= len s1)%nat -> take_bytes n (s1 +:+ s2) = take_bytes n s1.
Proof.
  unfold len. revert s1.
  induction n as [|n IH]; intros [|c s1]; cbn; try reflexivity; try lia.
  intros H. rewrite IH; [reflexivity | lia].
Qed.

Lemma drop_app (n : nat) (s1 s2 : string) :
  (n <= len s1)%nat -> drop_bytes n (s1 +:+ s2) = drop_bytes n s1 +:+ s2.
Proof.
  unfold len. revert s1.
  induction n as [|n IH]; intros [|c s1]; cbn; try reflexivity; try lia.
  intros H. apply IH. lia.
Qed.

Lemma drop_app_len (s1 s2 : string) : drop_bytes (len s1) (s1 +:+ s2) = s2.
Proof. induction s1 as [|c s1 IH]; cbn; [reflexivity | exact IH]. Qed.

Lemma drop_drop (n m : nat) (s : string) :
  drop_bytes n (drop_bytes m s) = drop_bytes (m + n) s.
Proof.
  revert s. induction m as [|m IH]; intros s; cbn; [reflexivity|].
  destruct s as [|c s]; [now rewrite drop_bytes_nil | apply IH].
Qed.

Lemma slice_0 (s : string) (j : nat) : slice s 0 j = take_bytes j s.
Proof. unfold slice. now rewrite Nat.sub_0_r. Qed.

Lemma at_app_l (s1 s2 : string) (i : nat) :
  (i < len s1)%nat -> at_ (s1 +:+ s2) i = at_ s1 i.
Proof.
  unfold at_, len. revert i. induction s1 as [|c s1 IH]; intros i; cbn; [lia|].
  destruct i as [|i]; [reflexivity|]. intros H. apply IH. lia.
Qed.

Lemma at_app_r (s1 s2 : string) (i : nat) :
  at_ (s1 +:+ s2) (len s1 + i) = at_ s2 i.
Proof.
  unfold at_, len. induction s1 as [|c s1 IH]; cbn; [reflexivity | exact IH].
Qed.

Lemma at_drop (s : string) (n i : nat) : at_ (drop_bytes n s) i = at_ s (n + i).
Proof.
  unfold at_. revert s. induction n as [|n IH]; intros s; cbn; [reflexivity|].
  destruct s as [|c s]; cbn; [reflexivity | apply IH].
Qed.

Lemma at_take (s : string) (n i : nat) :
  (i < n)%nat -> at_ (take_bytes n s) i = at_ s i.
Proof.
  unfold at_. revert s i. induction n as [|n IH]; intros s i H; [lia|].
  destruct s as [|c s]; cbn; [reflexivity|].
  destruct i as [|i]; [reflexivity | apply IH; lia].
Qed.

Lemma at_range (s : string) (i : nat) : 0 <= at_ s i < 256.
Proof.
  unfold at_. destruct (String.get i s); [apply byte_val_range | lia].
Qed.

(** ** The decoder [DecodeRuneInString] *)

(** Tactics that run the decoder on bytes known only by their range:
    settle the tests that are closed, look up the tables, and split on the
    remaining comparisons. *)
Ltac closed_if :=
  match goal with
  | |- context [if ?c then _ else _] =>
      let v := eval vm_compute in c in
      lazymatch v with
      | true => change c with true; cbv iota
      | false => change c with false; cbv iota
      end
  end.

Ltac eval_closed t :=
  let v := eval vm_compute in t in change t with v.

Ltac decode_tables :=
  repeat match goal with
  | |- context [Z.to_nat (Z.land ?x 7)] => eval_closed (Z.to_nat (Z.land x 7))
  | |- context [lo (acceptRanges ?i)] => eval_closed (lo (acceptRanges i))
  | |- context [hi (acceptRanges ?i)] => eval_closed (hi (acceptRanges i))
  | |- context [Z.shiftr (int32 (Z.shiftl ?x 31)) 31] =>
      eval_closed (Z.shiftr (int32 (Z.shiftl x 31)) 31)
  end.

Ltac decode_tests :=
  repeat match goal with
  | |- context [Nat.ltb ?n ?k] => destruct (Nat.ltb_spec n k)
  | |- context [Z.ltb ?a ?b] => destruct (Z.ltb_spec a b); cbn [orb]
  end.

(** Split on the row of [first] the byte [b0] lies in. *)
Ltac decode_first b0 :=
  unfold first;
  repeat match goal with
  | |- context [Z.ltb b0 ?k] => destruct (Z.ltb_spec b0 k)
  | |- context [Z.eqb b0 ?k] => destruct (Z.eqb_spec b0 k)
  end;
  repeat closed_if;
  try lia;
  decode_tables;
  unfold locb, hicb.

(** Forget which string the bytes at hand come from; keep their range. *)
Ltac generalize_bytes :=
  repeat match goal with
  | |- context [at_ ?u ?k] =>
      let R := fresh "R" in
      pose proof (at_range u k) as R;
      generalize dependent (at_ u k); intros ? R
  end.

(** On a non-empty string [DecodeRuneInString] ends in one of the five
    ways of [decoded]. *)
Lemma Decode_decoded (s : string) :
  s <> "" ->
  decoded (len s) (at_ s 0) (at_ s 1) (at_ s 2) (at_ s 3)
    (DecodeRuneInString s).
Proof.
  intros Hs.
  assert ((len s <? 1)%nat = false) as Hlen.
  { destruct s; [congruence | reflexivity]. }
  unfold DecodeRuneInString. rewrite Hlen. cbv zeta.
  pose proof (at_range s 0) as R0.
  pose proof (at_range s 1) as R1.
  pose proof (at_range s 2) as R2.
  pose proof (at_range s 3) as R3.
  fold (rune2 (at_ s 0) (at_ s 1)).
  fold (rune3 (at_ s 0) (at_ s 1) (at_ s 2)).
  fold (rune4 (at_ s 0) (at_ s 1) (at_ s 2) (at_ s 3)).
  generalize dependent (at_ s 3). generalize dependent (at_ s 2).
  generalize dependent (at_ s 1). generalize dependent (at_ s 0).
  generalize dependent (len s). clear s Hs.
  intros n _ b0 R0 b1 R1 b2 R2 b3 R3.
  decode_first b0.
  all: decode_tests.
  all: try (apply dec_invalid; lia).
  all: try (apply dec_2; [lia | unfold valid2, cont; lia]).
  all: try (apply dec_3; [lia | unfold valid3, cont; lia]).
  all: try (apply dec_4; [lia | unfold valid4, cont; lia]).
  - change (Z.lnot 0) with (-1).
    rewrite Z.land_m1_r, Z.land_0_r, Z.lor_0_r. now apply dec_ascii.
  - change (Z.lnot (-1)) with 0.
    rewrite Z.land_0_r, Z.land_m1_r, Z.lor_0_l. apply dec_invalid. lia.
  - change (Z.lnot (-1)) with 0.
    rewrite Z.land_0_r, Z.land_m1_r, Z.lor_0_l. apply dec_invalid. lia.
Qed.

(** The width is at least one byte and at most the bytes there are. *)
Lemma Decode_width (s : string) :
  s <> "" ->
  (1 <= snd (DecodeRuneInString s) <= len s)%nat.
Proof.
  intros Hs. assert (1 <= len s)%nat by (destruct s; [congruence | cbn; lia]).
  destruct (Decode_decoded s Hs); cbn [snd]; lia.
Qed.

(** A byte that is not a continuation byte ends the rune before it:
    what follows a string from such a byte on does not change the first
    rune of the string. *)
Lemma Decode_app (s x : string) :
  s <> "" ->
  ~ cont (at_ x 0) ->
  DecodeRuneInString (s +:+ x) = DecodeRuneInString s.
Proof.
  intros Hs Hx. unfold cont in Hx.
  unfold DecodeRuneInString. rewrite len_append.
  assert (forall i, (i < len s)%nat -> at_ (s +:+ x) i = at_ s i) as Hat
    by (intros i Hi; now apply at_app_l).
  assert (at_ (s +:+ x) (len s) = at_ x 0) as Hat'
    by (rewrite <- (Nat.add_0_r (len s)) at 1; apply at_app_r).
  pose proof (at_range x 0) as Rx.
  destruct s as [|c0 [|c1 [|c2 [|c3 s]]]]; [congruence| | | |].
  all: rewrite !Hat by (cbn; lia).
  all: cbn [len String.length] in *.
  all: try rewrite Hat'.
  all: clear Hat Hat' Hs.
  all: generalize dependent (at_ x 0); intros y0 Hy0 Ry0.
  all: generalize (len x); intros n.
  all: generalize_bytes.
  all: cbv zeta.
  all: match goal with
       | |- context [first ?b] => decode_first b
       end.
  all: decode_tests.
  all: try reflexivity.
  all: try lia.
Qed.

(** ** White-space runes and their encodings *)

Lemma forall_from_spec (k : nat) (lo : Z) (P : Z -> bool) :
  forall_from k lo P = true ->
  forall z : Z, lo <= z < lo + Z.of_nat k -> P z = true.
Proof.
  revert lo. induction k as [|k IH]; intros lo H z Hz; [lia|].
  cbn [forall_from] in H. apply andb_true_iff in H as [H0 H1].
  destruct (Z.eq_dec z lo) as [->|Hne]; [exact H0|].
  apply (IH (lo + 1) H1). lia.
Qed.

Lemma forall_range_spec (lo hi : Z) (P : Z -> bool) :
  forall_range lo hi P = true ->
  forall z : Z, lo <= z <= hi -> P z = true.
Proof.
  intros H z Hz. apply (forall_from_spec _ lo P H). lia.
Qed.

Lemma IsSpace_runes (r : Z) :
  Unicode.IsSpace r = true <-> In r white_space_runes.
Proof.
  split.
  - unfold Unicode.IsSpace, Unicode.isExcludingLatin_White_Space.
    change Unicode.MaxLatin1 with 255.
    destruct (Z.leb_spec 0 r); destruct (Z.leb_spec r 255); cbn [andb];
      try discriminate.
    + intros Hr.
      repeat (apply Bool.orb_prop in Hr as [Hr|Hr]);
        apply Z.eqb_eq in Hr; subst r; cbn; tauto.
    + cbn [Unicode.White_Space_LatinOffset Unicode.White_Space_R16 length
             Nat.ltb Nat.leb andb List.last Unicode.Hi Unicode.Lo
             Unicode.Stride skipn Unicode.is16 existsb].
      destruct (Z.leb_spec r 12288); cbn [andb]; [|discriminate].
      intros Hr.
      repeat (apply Bool.orb_prop in Hr as [Hr|Hr]);
        try discriminate;
        apply andb_prop in Hr as [Hr _]; apply andb_prop in Hr as [Hlo Hhi];
        apply Z.leb_le in Hlo; try apply Z.leb_le in Hhi; cbn; lia.
  - cbn. intros H.
    repeat (destruct H as [<-|H]; [reflexivity|]). contradiction.
Qed.

(** *** The decoded rune as a number *)

Lemma land_pow2_low (a b n : Z) :
  0 <= n -> 0 <= b < 2 ^ n -> Z.land (a * 2 ^ n) b = 0.
Proof.
  intros Hn Hb. apply Z.bits_inj'. intros m Hm.
  rewrite Z.land_spec, Z.bits_0.
  destruct (Z.lt_ge_cases m n) as [Hlt|Hge].
  - now rewrite Z.mul_pow2_bits_low.
  - destruct (Z.eq_dec b 0) as [->|Hb0].
    + now rewrite Z.bits_0, andb_false_r.
    + rewrite (Z.bits_above_log2 b m), andb_false_r; [reflexivity | lia |].
      apply Z.lt_le_trans with n; [|exact Hge].
      apply Z.log2_lt_pow2; lia.
Qed.

Lemma lor_pow2_low (a b n : Z) :
  0 <= n -> 0 <= b < 2 ^ n -> Z.lor (a * 2 ^ n) b = a * 2 ^ n + b.
Proof.
  intros Hn Hb.
  rewrite <- (Z.add_lor_land (a * 2 ^ n) b), (land_pow2_low a b n Hn Hb).
  lia.
Qed.

Lemma land_maskx (b : Z) : cont b -> Z.land b maskx = b - 0x80.
Proof.
  intros H. apply Z.eqb_eq.
  apply (forall_range_spec 0x80 0xBF
           (fun b => Z.land b maskx =? b - 0x80));
    [vm_compute; reflexivity | exact H].
Qed.

Lemma land_mask2 (b : Z) : 0xC0 <= b <= 0xDF -> Z.land b mask2 = b - 0xC0.
Proof.
  intros H. apply Z.eqb_eq.
  apply (forall_range_spec 0xC0 0xDF
           (fun b => Z.land b mask2 =? b - 0xC0));
    [vm_compute; reflexivity | exact H].
Qed.

Lemma land_mask3 (b : Z) : 0xE0 <= b <= 0xEF -> Z.land b mask3 = b - 0xE0.
Proof.
  intros H. apply Z.eqb_eq.
  apply (forall_range_spec 0xE0 0xEF
           (fun b => Z.land b mask3 =? b - 0xE0));
    [vm_compute; reflexivity | exact H].
Qed.

Lemma land_mask4 (b : Z) : 0xF0 <= b <= 0xF7 -> Z.land b mask4 = b - 0xF0.
Proof.
  intros H. apply Z.eqb_eq.
  apply (forall_range_spec 0xF0 0xF7
           (fun b => Z.land b mask4 =? b - 0xF0));
    [vm_compute; reflexivity | exact H].
Qed.

Lemma rune2_value (b0 b1 : Z) :
  0xC0 <= b0 <= 0xDF -> cont b1 ->
  rune2 b0 b1 = (b0 - 0xC0) * 64 + (b1 - 0x80).
Proof.
  intros H0 H1. unfold rune2. unfold cont in H1.
  rewrite (land_mask2 b0 H0), (land_maskx b1 H1).
  rewrite Z.shiftl_mul_pow2 by lia.
  rewrite lor_pow2_low by lia. lia.
Qed.

Lemma rune3_value (b0 b1 b2 : Z) :
  0xE0 <= b0 <= 0xEF -> cont b1 -> cont b2 ->
  rune3 b0 b1 b2 = (b0 - 0xE0) * 4096 + (b1 - 0x80) * 64 + (b2 - 0x80).
Proof.
  intros H0 H1 H2. unfold rune3. unfold cont in H1, H2.
  rewrite (land_mask3 b0 H0), (land_maskx b1 H1), (land_maskx b2 H2).
  rewrite !Z.shiftl_mul_pow2 by lia.
  rewrite (lor_pow2_low (b0 - 224) ((b1 - 128) * 2 ^ 6) 12) by lia.
  replace ((b0 - 224) * 2 ^ 12 + (b1 - 128) * 2 ^ 6)
    with (((b0 - 224) * 64 + (b1 - 128)) * 2 ^ 6) by lia.
  rewrite lor_pow2_low by lia. lia.
Qed.

Lemma rune4_value (b0 b1 b2 b3 : Z) :
  0xF0 <= b0 <= 0xF7 -> cont b1 -> cont b2 -> cont b3 ->
  rune4 b0 b1 b2 b3
  = (b0 - 0xF0) * 262144 + (b1 - 0x80) * 4096 + (b2 - 0x80) * 64
    + (b3 - 0x80).
Proof.
  intros H0 H1 H2 H3. unfold rune4. unfold cont in H1, H2, H3.
  rewrite (land_mask4 b0 H0), (land_maskx b1 H1), (land_maskx b2 H2),
    (land_maskx b3 H3).
  rewrite !Z.shiftl_mul_pow2 by lia.
  rewrite (lor_pow2_low (b0 - 240) ((b1 - 128) * 2 ^ 12) 18) by lia.
  replace ((b0 - 240) * 2 ^ 18 + (b1 - 128) * 2 ^ 12)
    with (((b0 - 240) * 64 + (b1 - 128)) * 2 ^ 12) by lia.
  rewrite (lor_pow2_low _ ((b2 - 128) * 2 ^ 6) 12) by lia.
  replace (((b0 - 240) * 64 + (b1 - 128)) * 2 ^ 12 + (b2 - 128) * 2 ^ 6)
    with ((((b0 - 240) * 64 + (b1 - 128)) * 64 + (b2 - 128)) * 2 ^ 6) by lia.
  rewrite lor_pow2_low by lia. lia.
Qed.

(** *** White-space runes are decoded from their encodings only *)

Lemma encode_ascii (b0 : Z) :
  0 <= b0 < 0x80 -> EncodeRune b0 = bytes1 b0.
Proof.
  intros H. unfold EncodeRune.
  rewrite Z.mod_small by lia.
  destruct (Z.leb_spec b0 rune1Max) as [_|Hgt]; [reflexivity|].
  unfold rune1Max in Hgt. lia.
Qed.

Ltac space_cases H :=
  apply IsSpace_runes in H; cbn [In white_space_runes] in H;
  repeat (destruct H as [H|H]; [|]); try contradiction.

Lemma space2 (b0 b1 : Z) :
  valid2 b0 b1 -> Unicode.IsSpace (rune2 b0 b1) = true ->
  EncodeRune (rune2 b0 b1) = bytes2 b0 b1.
Proof.
  intros [H0 H1] Hsp. pose proof H1 as H1'. unfold cont in H1'.
  rewrite rune2_value in Hsp by (assumption || lia).
  space_cases Hsp; try lia.
  - assert (b0 = 0xC2) as -> by lia. assert (b1 = 0x85) as -> by lia.
    reflexivity.
  - assert (b0 = 0xC2) as -> by lia. assert (b1 = 0xA0) as -> by lia.
    reflexivity.
Qed.

Ltac solve_bytes3 Hsp b0 b1 b2 :=
  lazymatch type of Hsp with
  | ?k = _ =>
      let v0 := eval vm_compute in (0xE0 + k / 4096) in
      let v1 := eval vm_compute in (0x80 + (k / 64) mod 64) in
      let v2 := eval vm_compute in (0x80 + k mod 64) in
      assert (b0 = v0) as -> by lia;
      assert (b1 = v1) as -> by lia;
      assert (b2 = v2) as -> by lia;
      reflexivity
  end.

Lemma space3 (b0 b1 b2 : Z) :
  valid3 b0 b1 b2 -> Unicode.IsSpace (rune3 b0 b1 b2) = true ->
  EncodeRune (rune3 b0 b1 b2) = bytes3 b0 b1 b2.
Proof.
  intros [H01 H2] Hsp. unfold cont in *.
  rewrite rune3_value in Hsp by (unfold cont; lia).
  space_cases Hsp; try lia; solve_bytes3 Hsp b0 b1 b2.
Qed.

Lemma space4 (b0 b1 b2 b3 : Z) :
  valid4 b0 b1 b2 b3 -> Unicode.IsSpace (rune4 b0 b1 b2 b3) = false.
Proof.
  intros (H01 & H2 & H3). unfold cont in *.
  destruct (Unicode.IsSpace (rune4 b0 b1 b2 b3)) eqn:Hsp; [|reflexivity].
  rewrite rune4_value in Hsp by (unfold cont; lia).
  space_cases Hsp; lia.
Qed.

Lemma string_head1 (s : string) :
  (1 <= len s)%nat -> s = bytes1 (at_ s 0) +:+ drop_bytes 1 s.
Proof.
  destruct s as [|c0 s]; cbn; [lia|]. intros _.
  unfold bytes1, at_. cbn. now rewrite byte_of_val.
Qed.

Lemma string_head2 (s : string) :
  (2 <= len s)%nat -> s = bytes2 (at_ s 0) (at_ s 1) +:+ drop_bytes 2 s.
Proof.
  destruct s as [|c0 [|c1 s]]; cbn; try lia. intros _.
  unfold bytes2, bytes1, at_. cbn. now rewrite !byte_of_val.
Qed.

Lemma string_head3 (s : string) :
  (3 <= len s)%nat ->
  s = bytes3 (at_ s 0) (at_ s 1) (at_ s 2) +:+ drop_bytes 3 s.
Proof.
  destruct s as [|c0 [|c1 [|c2 s]]]; cbn; try lia. intros _.
  unfold bytes3, bytes2, bytes1, at_. cbn. now rewrite !byte_of_val.
Qed.

(** A space rune is decoded only from its encoding. *)
Lemma Decode_space (s : string) (r : Z) (n : nat) :
  DecodeRuneInString s = (r, n) ->
  Unicode.IsSpace r = true ->
  s = EncodeRune r +:+ drop_bytes n s /\ len (EncodeRune r) = n.
Proof.
  intros Hdec Hsp.
  destruct (String.eqb_spec s "") as [->|Hs].
  { cbn in Hdec. injection Hdec as <- <-. discriminate. }
  pose proof (Decode_decoded s Hs) as Hd. rewrite Hdec in Hd.
  pose proof (at_range s 0) as R0.
  inversion Hd as [Hb|Hb|Hn Hv|Hn Hv|Hn Hv]; subst.
  - rewrite encode_ascii by lia. split; [|reflexivity].
    apply string_head1. destruct s; [congruence | cbn; lia].
  - discriminate.
  - rewrite (space2 _ _ Hv Hsp). split; [|reflexivity].
    now apply string_head2.
  - rewrite (space3 _ _ _ Hv Hsp). split; [|reflexivity].
    now apply string_head3.
  - rewrite (space4 _ _ _ _ Hv) in Hsp. discriminate.
Qed.

(** The encoding of a space rune decodes to the rune. *)
Lemma Decode_encode_space (r : Z) (x : string) :
  Unicode.IsSpace r = true ->
  DecodeRuneInString (EncodeRune r +:+ x) = (r, len (EncodeRune r)).
Proof.
  intros Hsp. space_cases Hsp; subst r; vm_compute; reflexivity.
Qed.

(** ** The decoder [DecodeLastRuneInString] *)

Lemma slice_to_end (s : string) (i : nat) :
  slice s i (len s) = drop_bytes i s.
Proof.
  unfold slice. apply take_all. rewrite len_drop. lia.
Qed.

Lemma backup_le (k : nat) (s : string) (start : Z) :
  backup k s start <= start.
Proof.
  revert start. induction k as [|k IH]; intros start; cbn [backup]; [lia|].
  destruct (RuneStart _); [lia|]. specialize (IH (start - 1)). lia.
Qed.

(** The three ways [DecodeLastRuneInString] ends on a non-empty string:
    on an ASCII byte, on an invalid byte, or on the rune that
    [DecodeRuneInString] reads from the last [n] bytes. *)
Lemma DecodeLast_cases (s : string) (r : Z) (n : nat) :
  s <> "" ->
  DecodeLastRuneInString s = (r, n) ->
  (at_ s (len s - 1) < 0x80 /\ r = at_ s (len s - 1) /\ n = 1%nat)
  \/ (0x80 <= at_ s (len s - 1) /\ r = RuneError /\ n = 1%nat)
  \/ (0x80 <= at_ s (len s - 1) /\ (1 <= n <= len s)%nat
      /\ DecodeRuneInString (drop_bytes (len s - n) s) = (r, n)).
Proof.
  intros Hs. unfold DecodeLastRuneInString.
  assert (1 <= len s)%nat as Hlen by (destruct s; [congruence | cbn; lia]).
  destruct (Z.eqb_spec (Z.of_nat (len s)) 0) as [E|_]; [lia|].
  cbv zeta.
  replace (Z.to_nat (Z.of_nat (len s) - 1)) with (len s - 1)%nat by lia.
  rewrite Nat2Z.id.
  destruct (Z.ltb_spec (at_ s (len s - 1)) RuneSelf) as [Hascii|Hhigh].
  { intros H. apply pair_equal_spec in H as [<- <-].
    left. unfold RuneSelf in Hascii. auto. }
  unfold RuneSelf in Hhigh.
  match goal with
  | |- context [backup ?k s ?z] =>
      pose proof (backup_le k s z) as Hle;
      generalize dependent (backup k s z); intros start Hle
  end.
  set (start' := if start <? 0 then 0 else start).
  assert (0 <= start' < Z.of_nat (len s)) as Hstart
    by (unfold start'; destruct (Z.ltb_spec start 0); lia).
  rewrite slice_to_end.
  destruct (DecodeRuneInString (drop_bytes (Z.to_nat start') s))
    as [r' size] eqn:Hdec.
  destruct (Z.eqb_spec (start' + Z.of_nat size) (Z.of_nat (len s)))
    as [E|_]; cbn [negb].
  - intros H. apply pair_equal_spec in H as [<- <-].
    right. right. split; [exact Hhigh|]. split; [lia|].
    replace (len s - size)%nat with (Z.to_nat start') by lia. exact Hdec.
  - intros H. apply pair_equal_spec in H as [<- <-]. right. left. auto.
Qed.

(** The width is at least one byte and at most the bytes there are. *)
Lemma DecodeLast_width (s : string) :
  s <> "" ->
  (1 <= snd (DecodeLastRuneInString s) <= len s)%nat.
Proof.
  intros Hs.
  assert (1 <= len s)%nat as Hlen by (destruct s; [congruence | cbn; lia]).
  destruct (DecodeLastRuneInString s) as [r n] eqn:Hdec. cbn [snd].
  destruct (DecodeLast_cases s r n Hs Hdec)
    as [(_ & _ & ->)|[(_ & _ & ->)|(_ & Hn & Hfwd)]]; lia.
Qed.

(** Reading forwards from where the last rune starts gives the width
    that reading backwards found. *)
Lemma DecodeLast_forward (s : string) (r : Z) (n : nat) :
  s <> "" ->
  DecodeLastRuneInString s = (r, n) ->
  snd (DecodeRuneInString (drop_bytes (len s - n) s)) = n.
Proof.
  intros Hs Hdec.
  assert (1 <= len s)%nat as Hlen by (destruct s; [congruence | cbn; lia]).
  assert (forall s1 : string, len s1 = 1%nat ->
            snd (DecodeRuneInString s1) = 1%nat) as Hone.
  { intros s1 H1. assert (s1 <> "") as Hne by (intros ->; discriminate).
    pose proof (Decode_width s1 Hne). lia. }
  destruct (DecodeLast_cases s r n Hs Hdec)
    as [(_ & _ & ->)|[(_ & _ & ->)|(_ & Hn & Hfwd)]].
  - apply Hone. rewrite len_drop. lia.
  - apply Hone. rewrite len_drop. lia.
  - now rewrite Hfwd.
Qed.

(** A space rune is read backwards only from its encoding. *)
Lemma DecodeLast_space (s : string) (r : Z) (n : nat) :
  DecodeLastRuneInString s = (r, n) ->
  Unicode.IsSpace r = true ->
  s = take_bytes (len s - n) s +:+ EncodeRune r /\ len (EncodeRune r) = n.
Proof.
  intros Hdec Hsp.
  destruct (String.eqb_spec s "") as [->|Hs].
  { cbn in Hdec. injection Hdec as <- <-. discriminate. }
  assert (1 <= len s)%nat as Hlen by (destruct s; [congruence | cbn; lia]).
  pose proof (at_range s (len s - 1)) as R.
  assert (DecodeRuneInString (drop_bytes (len s - n) s) = (r, n)
          /\ (n <= len s)%nat) as [Hfwd Hn].
  { destruct (DecodeLast_cases s r n Hs Hdec)
      as [(Hlow & -> & ->)|[(_ & -> & _)|(_ & Hn & Hfwd)]].
    - split; [|exact Hlen].
      assert (drop_bytes (len s - 1) s <> "") as Hne.
      { intros E. apply (f_equal len) in E. rewrite len_drop in E.
        cbn in E. lia. }
      pose proof (Decode_decoded _ Hne) as Hd.
      rewrite !at_drop in Hd. rewrite Nat.add_0_r in Hd.
      pose proof (Decode_width _ Hne) as Hw. rewrite len_drop in Hw.
      inversion Hd as [Hb E|Hb E|Hk Hv E|Hk Hv E|Hk Hv E];
        rewrite <- E in Hw; cbn [snd] in Hw; try lia.
      reflexivity.
    - discriminate.
    - split; [exact Hfwd | lia]. }
  destruct (Decode_space _ _ _ Hfwd Hsp) as [E Hlen_e].
  split; [|exact Hlen_e].
  rewrite drop_drop in E.
  rewrite (drop_all (len s - n + n)) in E by lia.
  rewrite append_nil_r in E. rewrite <- E. symmetry. apply take_drop.
Qed.

(** An ASCII byte at the end is a rune of its own. *)
Lemma DecodeLast_ascii (x : string) (c : ascii) :
  byte_val c < 0x80 ->
  DecodeLastRuneInString (x +:+ String c "") = (byte_val c, 1%nat).
Proof.
  intros Hc. unfold DecodeLastRuneInString. rewrite len_append.
  change (len (String c "")) with 1%nat.
  destruct (Z.eqb_spec (Z.of_nat (len x + 1)) 0) as [E|_]; [lia|].
  cbv zeta.
  replace (Z.to_nat (Z.of_nat (len x + 1) - 1)) with (len x + 0)%nat by lia.
  rewrite at_app_r. change (at_ (String c "") 0) with (byte_val c).
  destruct (Z.ltb_spec (byte_val c) RuneSelf) as [_|H]; [reflexivity|].
  unfold RuneSelf in H. lia.
Qed.

(** The last rune of a string that ends with a two-byte sequence whose
    first byte starts a rune. *)
Lemma DecodeLast_tail2 (x : string) (c0 c1 : ascii) :
  0x80 <= byte_val c1 ->
  RuneStart (byte_val c0) = true ->
  DecodeLastRuneInString (x +:+ String c0 (String c1 ""))
  = let '(r, size) := DecodeRuneInString (String c0 (String c1 "")) in
    if negb (size =? 2)%nat then (RuneError, 1%nat) else (r, size).
Proof.
  intros Hc1 Hc0. set (t := String c0 (String c1 "")).
  unfold DecodeLastRuneInString. rewrite len_append.
  change (len t) with 2%nat.
  destruct (Z.eqb_spec (Z.of_nat (len x + 2)) 0) as [E|_]; [lia|].
  cbv zeta.
  replace (Z.to_nat (Z.of_nat (len x + 2) - 1)) with (len x + 1)%nat by lia.
  rewrite at_app_r. change (at_ t 1) with (byte_val c1).
  destruct (Z.ltb_spec (byte_val c1) RuneSelf) as [H|_];
    [unfold RuneSelf in H; lia|].
  set (lim := if Z.of_nat (len x + 2) - Z.of_nat UTFMax <? 0 then 0
              else Z.of_nat (len x + 2) - Z.of_nat UTFMax).
  assert (0 <= lim <= Z.of_nat (len x)) as Hlim.
  { unfold lim, UTFMax.
    match goal with
    | |- context [Z.ltb ?a 0] => destruct (Z.ltb_spec a 0); lia
    end. }
  destruct (Z.to_nat (Z.of_nat (len x + 2) - 1 - 1 - lim + 1))
    as [|k] eqn:Hk; [lia|].
  cbn [backup].
  replace (Z.to_nat (Z.of_nat (len x + 2) - 1 - 1)) with (len x + 0)%nat
    by lia.
  rewrite at_app_r. change (at_ t 0) with (byte_val c0). rewrite Hc0.
  destruct (Z.ltb_spec (Z.of_nat (len x + 2) - 1 - 1) 0) as [H|_]; [lia|].
  replace (Z.to_nat (Z.of_nat (len x + 2) - 1 - 1)) with (len x) by lia.
  rewrite Nat2Z.id.
  replace (slice (x +:+ t) (len x) (len x + 2)) with t.
  2:{ unfold slice. rewrite drop_app_len.
      replace (len x + 2 - len x)%nat with 2%nat by lia. reflexivity. }
  destruct (DecodeRuneInString t) as [r size].
  replace (Z.of_nat (len x + 2) - 1 - 1 + Z.of_nat size =? Z.of_nat (len x + 2))
    with (size =? 2)%nat; [reflexivity|].
  destruct (Nat.eqb_spec size 2);
    match goal with
    | |- _ = Z.eqb ?a ?b => destruct (Z.eqb_spec a b); lia
    end.
Qed.

(** The same for a three-byte sequence. *)
Lemma DecodeLast_tail3 (x : string) (c0 c1 c2 : ascii) :
  0x80 <= byte_val c2 ->
  RuneStart (byte_val c1) = false ->
  RuneStart (byte_val c0) = true ->
  DecodeLastRuneInString (x +:+ String c0 (String c1 (String c2 "")))
  = let '(r, size) :=
      DecodeRuneInString (String c0 (String c1 (String c2 ""))) in
    if negb (size =? 3)%nat then (RuneError, 1%nat) else (r, size).
Proof.
  intros Hc2 Hc1 Hc0. set (t := String c0 (String c1 (String c2 ""))).
  unfold DecodeLastRuneInString. rewrite len_append.
  change (len t) with 3%nat.
  destruct (Z.eqb_spec (Z.of_nat (len x + 3)) 0) as [E|_]; [lia|].
  cbv zeta.
  replace (Z.to_nat (Z.of_nat (len x + 3) - 1)) with (len x + 2)%nat by lia.
  rewrite at_app_r. change (at_ t 2) with (byte_val c2).
  destruct (Z.ltb_spec (byte_val c2) RuneSelf) as [H|_];
    [unfold RuneSelf in H; lia|].
  set (lim := if Z.of_nat (len x + 3) - Z.of_nat UTFMax <? 0 then 0
              else Z.of_nat (len x + 3) - Z.of_nat UTFMax).
  assert (0 <= lim <= Z.of_nat (len x)) as Hlim.
  { unfold lim, UTFMax.
    match goal with
    | |- context [Z.ltb ?a 0] => destruct (Z.ltb_spec a 0); lia
    end. }
  destruct (Z.to_nat (Z.of_nat (len x + 3) - 1 - 1 - lim + 1))
    as [|[|k]] eqn:Hk; [lia|lia|].
  cbn [backup].
  replace (Z.to_nat (Z.of_nat (len x + 3) - 1 - 1)) with (len x + 1)%nat
    by lia.
  rewrite at_app_r. change (at_ t 1) with (byte_val c1). rewrite Hc1.
  replace (Z.to_nat (Z.of_nat (len x + 3) - 1 - 1 - 1)) with (len x + 0)%nat
    by lia.
  rewrite at_app_r. change (at_ t 0) with (byte_val c0). rewrite Hc0.
  destruct (Z.ltb_spec (Z.of_nat (len x + 3) - 1 - 1 - 1) 0) as [H|_]; [lia|].
  replace (Z.to_nat (Z.of_nat (len x + 3) - 1 - 1 - 1)) with (len x) by lia.
  rewrite Nat2Z.id.
  replace (slice (x +:+ t) (len x) (len x + 3)) with t.
  2:{ unfold slice. rewrite drop_app_len.
      replace (len x + 3 - len x)%nat with 3%nat by lia. reflexivity. }
  destruct (DecodeRuneInString t) as [r size].
  replace (Z.of_nat (len x + 3) - 1 - 1 - 1 + Z.of_nat size
           =? Z.of_nat (len x + 3))
    with (size =? 3)%nat; [reflexivity|].
  destruct (Nat.eqb_spec size 3);
    match goal with
    | |- _ = Z.eqb ?a ?b => destruct (Z.eqb_spec a b); lia
    end.
Qed.

(** The encoding of a space rune at the end of a string is read
    backwards as the rune. *)
Lemma DecodeLast_encode_space (r : Z) (x : string) :
  Unicode.IsSpace r = true ->
  DecodeLastRuneInString (x +:+ EncodeRune r) = (r, len (EncodeRune r)).
Proof.
  intros Hsp. space_cases Hsp; subst r.
  all: match goal with
       | |- context [EncodeRune ?k] =>
           let v := eval vm_compute in (EncodeRune k) in
           change (EncodeRune k) with v
       end.
  1-6: rewrite DecodeLast_ascii; [reflexivity | reflexivity].
  1-2: rewrite DecodeLast_tail2;
         [reflexivity | vm_compute; congruence | reflexivity].
  all: rewrite DecodeLast_tail3;
         [reflexivity | vm_compute; congruence | reflexivity | reflexivity].
Qed.

(** ** White space in a string of bytes *)

Lemma EncodeRune_space_len (r : Z) :
  Unicode.IsSpace r = true -> (1 <= len (EncodeRune r))%nat.
Proof.
  intros Hsp. space_cases Hsp; subst r;
    match goal with
    | |- (_ <= len ?e)%nat =>
        let v := eval vm_compute in (len e) in change (len e) with v; lia
    end.
Qed.

Lemma EncodeRune_space_first (r : Z) (x : string) :
  Unicode.IsSpace r = true -> ~ cont (at_ (EncodeRune r +:+ x) 0).
Proof.
  intros Hsp. unfold cont. space_cases Hsp; subst r; vm_compute;
    intros [H1 H2]; congruence.
Qed.

Lemma white_space_first (w : string) : white_space w -> ~ cont (at_ w 0).
Proof.
  intros [|r s Hsp _].
  - unfold cont. cbn. lia.
  - now apply EncodeRune_space_first.
Qed.

Lemma white_space_app (a b : string) :
  white_space a -> white_space b -> white_space (a +:+ b).
Proof.
  intros Ha Hb. induction Ha as [|r s Hsp _ IH]; [exact Hb|].
  rewrite append_assoc. now constructor.
Qed.

Lemma white_space_one (r : Z) :
  Unicode.IsSpace r = true -> white_space (EncodeRune r).
Proof.
  intros Hsp. rewrite <- (append_nil_r (EncodeRune r)).
  constructor; [exact Hsp | constructor].
Qed.

Lemma not_starts_with_space_nil : ~ starts_with_space "".
Proof.
  intros (r & rest & Hsp & E). apply (f_equal len) in E.
  rewrite len_append in E. pose proof (EncodeRune_space_len r Hsp).
  cbn in E. lia.
Qed.

Lemma not_ends_with_space_nil : ~ ends_with_space "".
Proof.
  intros (r & init & Hsp & E). apply (f_equal len) in E.
  rewrite len_append in E. pose proof (EncodeRune_space_len r Hsp).
  cbn in E. lia.
Qed.

(** What the decoders say about the two ends. *)
Lemma starts_with_space_Decode (s : string) :
  starts_with_space s <->
  Unicode.IsSpace (fst (DecodeRuneInString s)) = true.
Proof.
  split.
  - intros (r & rest & Hsp & ->). now rewrite Decode_encode_space.
  - intros Hsp. destruct (DecodeRuneInString s) as [r n] eqn:Hdec.
    destruct (Decode_space s r n Hdec Hsp) as [E _].
    now exists r, (drop_bytes n s).
Qed.

Lemma ends_with_space_DecodeLast (s : string) :
  ends_with_space s <->
  Unicode.IsSpace (fst (DecodeLastRuneInString s)) = true.
Proof.
  split.
  - intros (r & init & Hsp & ->). now rewrite DecodeLast_encode_space.
  - intros Hsp. destruct (DecodeLastRuneInString s) as [r n] eqn:Hdec.
    destruct (DecodeLast_space s r n Hdec Hsp) as [E _].
    now exists r, (take_bytes (len s - n) s).
Qed.

Lemma white_space_ends (w : string) :
  white_space w -> w <> "" -> ends_with_space w.
Proof.
  induction 1 as [|r s Hsp Hs IH]; [congruence|]. intros _.
  destruct (String.eqb_spec s "") as [->|Hne].
  - exists r, "". now rewrite append_nil_r.
  - destruct (IH Hne) as (r' & init & Hsp' & ->).
    exists r', (EncodeRune r +:+ init). now rewrite append_assoc.
Qed.

Lemma white_space_starts (w : string) :
  white_space w -> w <> "" -> starts_with_space w.
Proof. intros [|r s Hsp _]; [congruence|]. intros _. now exists r, s. Qed.

(** ** The loops of package [strings] *)

Lemma take_app_add (e x : string) (k : nat) :
  take_bytes (len e + k) (e +:+ x) = e +:+ take_bytes k x.
Proof.
  induction e as [|c e IH]; [reflexivity|]. cbn. now rewrite <- IH.
Qed.

(** The fuel of the two loops is only a device of the embedding: any
    amount that covers the bytes left gives the same result, so the loops
    never stop for lack of it. *)
Lemma indexFunc_loop_fuel (f : Z -> bool) (truth : bool)
    (fuel fuel' : nat) (rest : string) (i : nat) :
  (len rest <= fuel)%nat -> (len rest <= fuel')%nat ->
  indexFunc_loop fuel rest f truth i = indexFunc_loop fuel' rest f truth i.
Proof.
  revert fuel' rest i.
  induction fuel as [|fuel IH]; intros fuel' rest i Hfuel Hfuel'.
  { assert (rest = "") as -> by (apply len_0; lia).
    destruct fuel'; reflexivity. }
  destruct fuel' as [|fuel'].
  { assert (rest = "") as -> by (apply len_0; lia). reflexivity. }
  cbn [indexFunc_loop].
  destruct (Nat.eqb_spec (len rest) 0) as [E|Hne]; [reflexivity|].
  assert (rest <> "") as Hrest by (intros ->; now apply Hne).
  pose proof (Decode_width rest Hrest) as Hw.
  destruct (DecodeRuneInString rest) as [r size]. cbn [snd] in Hw.
  destruct (Bool.eqb (f r) truth); [reflexivity|].
  apply IH; rewrite len_drop; lia.
Qed.

Lemma lastIndexFunc_loop_fuel (f : Z -> bool) (truth : bool)
    (fuel fuel' : nat) (s : string) (i : nat) :
  (i <= fuel)%nat -> (i <= fuel')%nat -> (i <= len s)%nat ->
  lastIndexFunc_loop fuel s f truth i = lastIndexFunc_loop fuel' s f truth i.
Proof.
  revert fuel' i.
  induction fuel as [|fuel IH]; intros fuel' i Hfuel Hfuel' Hi.
  { replace i with 0%nat by lia. destruct fuel'; reflexivity. }
  destruct fuel' as [|fuel'].
  { replace i with 0%nat by lia. reflexivity. }
  cbn [lastIndexFunc_loop].
  destruct (Nat.ltb_spec 0 i) as [Hpos|_]; [|reflexivity].
  assert (slice s 0 i <> "") as Hne.
  { rewrite slice_0. intros E. apply (f_equal len) in E.
    rewrite len_take in E by lia. cbn in E. lia. }
  pose proof (DecodeLast_width _ Hne) as Hw.
  destruct (DecodeLastRuneInString (slice s 0 i)) as [r size].
  cbn [snd] in Hw.
  destruct (Bool.eqb (f r) truth); [reflexivity|].
  apply IH; lia.
Qed.

Lemma indexFunc_loop_spec (fuel : nat) (rest : string) (i : nat) :
  (len rest <= fuel)%nat ->
  match indexFunc_loop fuel rest Unicode.IsSpace false i with
  | None => white_space rest
  | Some j =>
      (i <= j < i + len rest)%nat
      /\ white_space (take_bytes (j - i) rest)
      /\ ~ starts_with_space (drop_bytes (j - i) rest)
  end.
Proof.
  revert rest i. induction fuel as [|fuel IH]; intros rest i Hfuel.
  { cbn. destruct rest; [constructor | cbn in Hfuel; lia]. }
  cbn [indexFunc_loop].
  destruct (Nat.eqb_spec (len rest) 0) as [E|Hne].
  { apply len_0 in E. subst. constructor. }
  assert (rest <> "") as Hrest by (intros ->; now apply Hne).
  destruct (DecodeRuneInString rest) as [r size] eqn:Hdec.
  pose proof (Decode_width rest Hrest) as Hw. rewrite Hdec in Hw.
  cbn [snd] in Hw.
  destruct (Unicode.IsSpace r) eqn:Hsp; cbn [Bool.eqb].
  - destruct (Decode_space rest r size Hdec Hsp) as [E Hlen].
    specialize (IH (drop_bytes size rest) (i + size)%nat).
    rewrite len_drop in IH. specialize (IH ltac:(lia)).
    destruct (indexFunc_loop fuel _ _ _ _) as [j|].
    + destruct IH as (Hj & Hws & Hns). split; [lia|].
      replace (j - i)%nat with (size + (j - (i + size)))%nat by lia.
      rewrite <- drop_drop. split; [|exact Hns].
      rewrite E at 1. rewrite <- Hlen at 1.
      rewrite take_app_add. now constructor.
    + rewrite E. now constructor.
  - split; [lia|]. rewrite Nat.sub_diag. split; [constructor|].
    cbn [drop_bytes]. rewrite starts_with_space_Decode, Hdec. cbn [fst].
    congruence.
Qed.

Lemma TrimLeftFunc_spec (s : string) :
  exists pre : string,
    s = pre +:+ TrimLeftFunc s Unicode.IsSpace
    /\ white_space pre
    /\ ~ starts_with_space (TrimLeftFunc s Unicode.IsSpace).
Proof.
  unfold TrimLeftFunc, indexFunc.
  pose proof (indexFunc_loop_spec (len s) s 0 (le_n _)) as H.
  destruct (indexFunc_loop _ _ _ _ _) as [j|].
  - destruct H as (Hj & Hws & Hns). rewrite Nat.sub_0_r in Hws, Hns.
    exists (take_bytes j s). now rewrite take_drop.
  - exists s. rewrite append_nil_r.
    split; [reflexivity|]. split; [exact H | exact not_starts_with_space_nil].
Qed.

Lemma take_take (a b : nat) (s : string) :
  (a <= b)%nat -> take_bytes a (take_bytes b s) = take_bytes a s.
Proof.
  revert b s. induction a as [|a IH]; intros b s H; [reflexivity|].
  destruct b as [|b]; [lia|]. destruct s as [|c s]; [reflexivity|].
  cbn. rewrite IH; [reflexivity | lia].
Qed.

Lemma drop_take (a b : nat) (s : string) :
  drop_bytes a (take_bytes b s) = take_bytes (b - a) (drop_bytes a s).
Proof.
  revert b s. induction a as [|a IH]; intros b s.
  - now rewrite Nat.sub_0_r.
  - destruct b as [|b]; [reflexivity|].
    destruct s as [|c s]; [cbn; now rewrite take_bytes_nil|]. cbn. apply IH.
Qed.

Lemma slice_split (s : string) (i m j : nat) :
  (i <= m <= j)%nat -> slice s i j = slice s i m +:+ slice s m j.
Proof.
  intros H. unfold slice.
  replace (drop_bytes m s) with (drop_bytes (m - i) (drop_bytes i s))
    by (rewrite drop_drop; f_equal; lia).
  generalize (drop_bytes i s). intros u.
  replace (j - i)%nat with ((m - i) + (j - m))%nat by lia.
  generalize (m - i)%nat (j - m)%nat. clear. intros a b.
  revert u. induction a as [|a IH]; intros u; [reflexivity|].
  destruct u as [|c u]; cbn; [now rewrite take_bytes_nil|].
  now rewrite IH.
Qed.

Lemma drop_split (s : string) (j i : nat) :
  (j <= i)%nat ->
  drop_bytes j s = drop_bytes j (take_bytes i s) +:+ drop_bytes i s.
Proof.
  intros H. rewrite <- (take_drop i s) at 1.
  destruct (Nat.le_gt_cases i (len s)) as [Hi|Hi].
  - apply drop_app. rewrite len_take; lia.
  - rewrite (drop_all i s) by lia. now rewrite !append_nil_r.
Qed.

Lemma Decode_ascii_width (s : string) :
  s <> "" -> at_ s 0 < 0x80 -> snd (DecodeRuneInString s) = 1%nat.
Proof.
  intros Hs Hb. pose proof (Decode_decoded s Hs) as Hd.
  inversion Hd as [H E|H E|Hn Hv E|Hn Hv E|Hn Hv E]; try reflexivity.
  - destruct Hv as [Hv _]. lia.
  - destruct Hv as [Hv _]. lia.
  - destruct Hv as [Hv _]. lia.
Qed.

Lemma lastIndexFunc_loop_spec (fuel : nat) (s : string) (i : nat) :
  (i <= fuel)%nat -> (i <= len s)%nat ->
  match lastIndexFunc_loop fuel s Unicode.IsSpace false i with
  | None => white_space (take_bytes i s)
  | Some j =>
      exists (i' : nat) (r : Z),
        (j < i' <= i)%nat
        /\ white_space (slice s i' i)
        /\ DecodeLastRuneInString (take_bytes i' s) = (r, (i' - j)%nat)
        /\ Unicode.IsSpace r = false
  end.
Proof.
  revert i. induction fuel as [|fuel IH]; intros i Hfuel Hi.
  { cbn. replace i with 0%nat by lia. constructor. }
  cbn [lastIndexFunc_loop].
  destruct (Nat.ltb_spec 0 i) as [Hpos|Hz].
  2:{ replace i with 0%nat by lia. constructor. }
  rewrite slice_0.
  assert (take_bytes i s <> "") as Hne.
  { intros E. apply (f_equal len) in E. rewrite len_take in E by lia.
    cbn in E. lia. }
  destruct (DecodeLastRuneInString (take_bytes i s)) as [r size] eqn:Hdec.
  pose proof (DecodeLast_width _ Hne) as Hw. rewrite Hdec in Hw.
  cbn [snd] in Hw. rewrite len_take in Hw by lia.
  destruct (Unicode.IsSpace r) eqn:Hsp; cbn [Bool.eqb].
  - destruct (DecodeLast_space _ r size Hdec Hsp) as [E Hlen].
    rewrite len_take in E by lia. rewrite take_take in E by lia.
    assert (slice s (i - size) i = EncodeRune r) as Hslice.
    { unfold slice. rewrite <- drop_take. rewrite E.
      rewrite <- (len_take (i - size) s) at 1 by lia.
      apply drop_app_len. }
    specialize (IH (i - size)%nat ltac:(lia) ltac:(lia)).
    destruct (lastIndexFunc_loop fuel _ _ _ _) as [j|].
    + destruct IH as (i' & r' & Hj & Hws & Hlast & Hns).
      exists i', r'. split; [lia|]. split; [|auto].
      rewrite (slice_split s i' (i - size) i) by lia. rewrite Hslice.
      apply white_space_app; [exact Hws | now apply white_space_one].
    + rewrite E. apply white_space_app; [exact IH | now apply white_space_one].
  - exists i, r. split; [lia|]. split.
    + unfold slice. rewrite Nat.sub_diag. constructor.
    + replace (i - (i - size))%nat with size by lia. auto.
Qed.

Lemma TrimRightFunc_spec (s : string) :
  exists post : string,
    s = TrimRightFunc s Unicode.IsSpace +:+ post
    /\ white_space post
    /\ ~ ends_with_space (TrimRightFunc s Unicode.IsSpace).
Proof.
  unfold TrimRightFunc, lastIndexFunc.
  pose proof (lastIndexFunc_loop_spec (len s) s (len s) (le_n _) (le_n _))
    as H.
  destruct (lastIndexFunc_loop _ _ _ _ _) as [j|].
  2:{ exists s. rewrite (take_all (len s) s) in H by lia.
      split; [reflexivity|]. split; [exact H|].
      exact not_ends_with_space_nil. }
  destruct H as (i' & r & Hj & Hws & Hlast & Hns).
  rewrite slice_to_end in Hws.
  assert (take_bytes i' s <> "") as Hne.
  { intros E. apply (f_equal len) in E. rewrite len_take in E by lia.
    cbn in E. lia. }
  pose proof (DecodeLast_forward _ r _ Hne Hlast) as Hfwd.
  rewrite len_take in Hfwd by lia.
  replace (i' - (i' - j))%nat with j in Hfwd by lia.
  assert (drop_bytes j (take_bytes i' s) <> "") as Hne'.
  { intros E. apply (f_equal len) in E. rewrite len_drop, len_take in E by lia.
    cbn in E. lia. }
  assert (DecodeRuneInString (drop_bytes j s)
          = DecodeRuneInString (drop_bytes j (take_bytes i' s))) as Hdec.
  { rewrite (drop_split s j i') by lia.
    apply Decode_app; [exact Hne' | now apply white_space_first]. }
  assert (at_ (drop_bytes j (take_bytes i' s)) 0 = at_ s j) as Hat.
  { rewrite at_drop, Nat.add_0_r. apply at_take. lia. }
  assert ((if at_ s j >=? RuneSelf
           then let '(_, wid) := DecodeRuneInString (drop_bytes j s) in
                (j + wid)%nat
           else (j + 1)%nat) = i') as ->.
  { rewrite Hdec. unfold RuneSelf.
    destruct (Z.geb_spec (at_ s j) 128) as [Hhigh|Hlow].
    - destruct (DecodeRuneInString (drop_bytes j (take_bytes i' s)))
        as [r' wid].
      cbn [snd] in Hfwd. lia.
    - pose proof (Decode_ascii_width _ Hne') as Hw. rewrite Hat in Hw.
      specialize (Hw Hlow). lia. }
  exists (drop_bytes i' s). rewrite slice_0.
  split; [now rewrite take_drop|]. split; [exact Hws|].
  rewrite ends_with_space_DecodeLast, Hlast. cbn [fst]. congruence.
Qed.

Lemma TrimFunc_spec (s : string) :
  exists pre post : string,
    s = pre +:+ TrimFunc s Unicode.IsSpace +:+ post
    /\ white_space pre /\ white_space post
    /\ ~ starts_with_space (TrimFunc s Unicode.IsSpace)
    /\ ~ ends_with_space (TrimFunc s Unicode.IsSpace).
Proof.
  unfold TrimFunc.
  destruct (TrimLeftFunc_spec s) as (pre & Es & Hpre & Hns).
  destruct (TrimRightFunc_spec (TrimLeftFunc s Unicode.IsSpace))
    as (post & Eu & Hpost & Hne).
  exists pre, post. rewrite <- Eu. repeat split; try assumption.
  intros (r & rest & Hsp & E). apply Hns.
  exists r, (rest +:+ post). split; [exact Hsp|].
  now rewrite Eu, E, append_assoc.
Qed.

Lemma asciiSpace_range (c : Z) : asciiSpace c = true -> 0 <= c < 0x80.
Proof.
  unfold asciiSpace. intros H.
  repeat (apply Bool.orb_prop in H as [H|H]); apply Z.eqb_eq in H; lia.
Qed.

Lemma IsSpace_ascii (c : Z) :
  0 <= c < 0x80 -> Unicode.IsSpace c = asciiSpace c.
Proof.
  intros H. unfold Unicode.IsSpace, asciiSpace, Unicode.MaxLatin1.
  destruct (Z.leb_spec 0 c); [|lia]. destruct (Z.leb_spec c 255); [|lia].
  cbn [andb].
  destruct (Z.eqb_spec c 133); [lia|]. destruct (Z.eqb_spec c 160); [lia|].
  now rewrite !orb_false_r.
Qed.

Lemma bytes1_space (c : ascii) :
  asciiSpace (byte_val c) = true -> white_space (String c "").
Proof.
  intros H. pose proof (asciiSpace_range _ H) as R.
  rewrite <- (byte_of_val c). change (white_space (bytes1 (byte_val c))).
  rewrite <- encode_ascii by exact R.
  apply white_space_one. now rewrite IsSpace_ascii.
Qed.

Lemma Decode_ascii (c : ascii) (rest : string) :
  byte_val c < 0x80 ->
  DecodeRuneInString (String c rest) = (byte_val c, 1%nat).
Proof.
  intros Hc.
  pose proof (Decode_decoded (String c rest) ltac:(discriminate)) as Hd.
  change (at_ (String c rest) 0) with (byte_val c) in Hd.
  inversion Hd as [H E|H E|Hn Hv E|Hn Hv E|Hn Hv E]; try reflexivity;
    try lia; destruct Hv as [Hv _]; lia.
Qed.

Lemma take_S (u : string) (k : nat) :
  (k < len u)%nat ->
  take_bytes (S k) u = take_bytes k u +:+ bytes1 (at_ u k).
Proof.
  unfold len. revert u.
  induction k as [|k IH]; intros [|c u] H; cbn in H; try lia.
  - unfold bytes1, at_. cbn. now rewrite byte_of_val.
  - change (take_bytes (S (S k)) (String c u))
      with (String c (take_bytes (S k) u)).
    rewrite IH by lia. reflexivity.
Qed.

Lemma TrimSpace_stop_spec (u : string) (k : nat) :
  (k <= len u)%nat ->
  exists post : string,
    take_bytes k u = TrimSpace_stop u k +:+ post
    /\ white_space post
    /\ ~ ends_with_space (TrimSpace_stop u k).
Proof.
  induction k as [|k IH]; intros Hk.
  { exists "". cbn. split; [reflexivity|].
    split; [constructor | exact not_ends_with_space_nil]. }
  cbn [TrimSpace_stop]. rewrite slice_0.
  pose proof (at_range u k) as R.
  unfold RuneSelf.
  destruct (Z.geb_spec (at_ u k) 128) as [Hhigh|Hlow].
  { apply TrimRightFunc_spec. }
  destruct (asciiSpace (at_ u k)) eqn:Hsp; cbn [negb].
  - destruct (IH ltac:(lia)) as (post & E & Hpost & Hne).
    exists (post +:+ bytes1 (at_ u k)).
    rewrite take_S by lia. rewrite E, append_assoc.
    split; [reflexivity|]. split; [|exact Hne].
    apply white_space_app; [exact Hpost|].
    rewrite <- encode_ascii by lia. apply white_space_one.
    now rewrite IsSpace_ascii by lia.
  - exists "". rewrite append_nil_r. split; [reflexivity|].
    split; [constructor|].
    rewrite ends_with_space_DecodeLast. rewrite take_S by lia.
    unfold bytes1. rewrite DecodeLast_ascii; rewrite byte_of_val_range by lia;
      [|lia].
    cbn [fst]. rewrite IsSpace_ascii by lia. congruence.
Qed.

(** ** [TrimSpace] *)

(** What [TrimSpace] returns is the input without a prefix and a suffix
    of white space, and has no white space at either end. *)
Lemma TrimSpace_spec (s : string) :
  exists pre post : string,
    s = pre +:+ TrimSpace s +:+ post
    /\ white_space pre /\ white_space post
    /\ ~ starts_with_space (TrimSpace s)
    /\ ~ ends_with_space (TrimSpace s).
Proof.
  unfold TrimSpace. induction s as [|c0 s IH].
  { exists "", "". cbn. repeat split; try constructor.
    - exact not_starts_with_space_nil.
    - exact not_ends_with_space_nil. }
  cbn [TrimSpace_start]. unfold RuneSelf.
  pose proof (byte_val_range c0) as R.
  destruct (Z.geb_spec (byte_val c0) 128) as [Hhigh|Hlow].
  { apply TrimFunc_spec. }
  destruct (asciiSpace (byte_val c0)) eqn:Hsp; cbn [negb].
  - destruct IH as (pre & post & E & Hpre & Hpost & Hns & Hne).
    exists (String c0 pre), post. rewrite E at 1.
    split; [reflexivity|]. repeat split; try assumption.
    change (String c0 pre) with (String c0 "" +:+ pre).
    apply white_space_app; [now apply bytes1_space | exact Hpre].
  - destruct (TrimSpace_stop_spec (String c0 s) (len (String c0 s)) (le_n _))
      as (post & E & Hpost & Hne).
    rewrite take_all in E by lia.
    exists "", post. split; [exact E|]. repeat split; try assumption;
      [constructor|].
    intros (r & rest & Hr & E').
    assert (starts_with_space (String c0 s)) as Hstart.
    { exists r, (rest +:+ post). split; [exact Hr|].
      now rewrite E, E', append_assoc. }
    apply starts_with_space_Decode in Hstart.
    rewrite Decode_ascii in Hstart by lia. cbn [fst] in Hstart.
    rewrite IsSpace_ascii in Hstart by lia. congruence.
Qed.

(** A string without white space at either end is returned as it is. *)
Lemma TrimSpace_fixed (s : string) :
  ~ starts_with_space s -> ~ ends_with_space s -> TrimSpace s = s.
Proof.
  intros Hns Hne.
  destruct (TrimSpace_spec s) as (pre & post & E & Hpre & Hpost & _ & _).
  assert (pre = "") as ->.
  { destruct (String.eqb_spec pre "") as [|Hp]; [assumption|].
    exfalso. apply Hns.
    destruct (white_space_starts pre Hpre Hp) as (r & rest & Hr & ->).
    exists r, (rest +:+ TrimSpace s +:+ post). split; [exact Hr|].
    now rewrite E at 1; rewrite append_assoc. }
  assert (post = "") as ->.
  { destruct (String.eqb_spec post "") as [|Hp]; [assumption|].
    exfalso. apply Hne.
    destruct (white_space_ends post Hpost Hp) as (r & init & Hr & ->).
    exists r, (TrimSpace s +:+ init). split; [exact Hr|].
    now rewrite E at 1; rewrite append_assoc. }
  cbn in E. now rewrite append_nil_r in E.
Qed.

(** [TrimSpace] is idempotent. *)
Lemma TrimSpace_idempotent (s : string) : TrimSpace (TrimSpace s) = TrimSpace s.
Proof.
  destruct (TrimSpace_spec s) as (_ & _ & _ & _ & _ & Hns & Hne).
  now apply TrimSpace_fixed.
Qed.

(** An ASCII space in front of the string changes nothing. *)
Lemma TrimSpace_cons_space (c : ascii) (s : string) :
  asciiSpace (byte_val c) = true ->
  TrimSpace (String c s) = TrimSpace s.
Proof.
  intros Hsp. pose proof (asciiSpace_range _ Hsp) as R.
  unfold TrimSpace. cbn [TrimSpace_start]. unfold RuneSelf.
  destruct (Z.geb_spec (byte_val c) 128) as [Hhigh|_]; [lia|].
  now rewrite Hsp.
Qed.

(** *** An ASCII space behind the string changes nothing *)

Section Snoc.
Variable c : ascii.
Hypothesis Hc : asciiSpace (byte_val c) = true.

Lemma one_not_cont : ~ cont (at_ (String c "") 0).
Proof.
  pose proof (asciiSpace_range _ Hc) as R.
  unfold cont. change (at_ (String c "") 0) with (byte_val c). lia.
Qed.

Lemma indexFunc_loop_snoc (fuel fuel' : nat) (rest : string) (i : nat) :
  (len rest <= fuel)%nat -> (len rest + 1 <= fuel')%nat ->
  indexFunc_loop fuel' (rest +:+ (String c "")) Unicode.IsSpace false i
  = indexFunc_loop fuel rest Unicode.IsSpace false i.
Proof.
  pose proof (asciiSpace_range _ Hc) as R.
  assert (forall (f : nat) (j : nat),
            indexFunc_loop f (String c "") Unicode.IsSpace false j = None)
    as Hone.
  { intros [|f] j; [reflexivity|]. cbn [indexFunc_loop].
    change (len (String c "") =? 0)%nat with false. cbv iota.
    rewrite Decode_ascii by lia.
    rewrite IsSpace_ascii, Hc by lia. cbn [Bool.eqb drop_bytes].
    destruct f; reflexivity. }
  revert fuel' rest i.
  induction fuel as [|fuel IH]; intros fuel' rest i Hfuel Hfuel'.
  { assert (rest = "") as -> by (apply len_0; lia). apply Hone. }
  destruct (String.eqb_spec rest "") as [->|Hne].
  { rewrite Hone. reflexivity. }
  assert (1 <= len rest)%nat
    by (destruct rest; [congruence | cbn; lia]).
  destruct fuel' as [|fuel']; [lia|].
  cbn [indexFunc_loop]. rewrite len_append.
  destruct (Nat.eqb_spec (len rest + len (String c "")) 0) as [E|_]; [lia|].
  destruct (Nat.eqb_spec (len rest) 0) as [E|_]; [lia|].
  rewrite (Decode_app rest (String c "") Hne one_not_cont).
  pose proof (Decode_width rest Hne) as Hw.
  destruct (DecodeRuneInString rest) as [r size]. cbn [snd] in Hw.
  destruct (Bool.eqb (Unicode.IsSpace r) false); [reflexivity|].
  rewrite drop_app by lia.
  apply IH; rewrite len_drop; lia.
Qed.

Lemma indexFunc_snoc (u : string) :
  indexFunc (u +:+ (String c "")) Unicode.IsSpace false
  = indexFunc u Unicode.IsSpace false.
Proof.
  unfold indexFunc. apply indexFunc_loop_snoc; [lia|].
  rewrite len_append. reflexivity.
Qed.

Lemma lastIndexFunc_loop_app (fuel : nat) (v w : string) (i : nat) :
  (i <= len v)%nat ->
  lastIndexFunc_loop fuel (v +:+ w) Unicode.IsSpace false i
  = lastIndexFunc_loop fuel v Unicode.IsSpace false i.
Proof.
  revert i. induction fuel as [|fuel IH]; intros i Hi; [reflexivity|].
  cbn [lastIndexFunc_loop]. destruct (0 <? i)%nat; [|reflexivity].
  rewrite !slice_0, take_app by exact Hi.
  destruct (DecodeLastRuneInString (take_bytes i v)) as [r size].
  destruct (Bool.eqb (Unicode.IsSpace r) false); [reflexivity|].
  apply IH. lia.
Qed.

Lemma lastIndexFunc_snoc (v : string) :
  lastIndexFunc (v +:+ (String c "")) Unicode.IsSpace false
  = lastIndexFunc v Unicode.IsSpace false.
Proof.
  pose proof (asciiSpace_range _ Hc) as R.
  unfold lastIndexFunc. rewrite len_append.
  change (len (String c "")) with 1%nat. rewrite Nat.add_1_r.
  cbn [lastIndexFunc_loop]. change (0 <? S (len v))%nat with true.
  cbv iota. rewrite slice_0.
  rewrite take_all by (rewrite len_append; cbn; lia).
  rewrite DecodeLast_ascii by lia.
  rewrite IsSpace_ascii, Hc by lia. cbn [Bool.eqb].
  replace (S (len v) - 1)%nat with (len v) by lia.
  now apply lastIndexFunc_loop_app.
Qed.

Lemma TrimRightFunc_snoc (v : string) :
  TrimRightFunc (v +:+ (String c "")) Unicode.IsSpace
  = TrimRightFunc v Unicode.IsSpace.
Proof.
  unfold TrimRightFunc. rewrite lastIndexFunc_snoc.
  pose proof (lastIndexFunc_loop_spec (len v) v (len v) (le_n _) (le_n _))
    as Hspec.
  fold (lastIndexFunc v Unicode.IsSpace false) in Hspec.
  destruct (lastIndexFunc v Unicode.IsSpace false) as [j|]; [|reflexivity].
  destruct Hspec as (i' & r & Hj & _).
  rewrite at_app_l by lia. rewrite drop_app by lia.
  assert (drop_bytes j v <> "") as Hne.
  { intros E. apply (f_equal len) in E. rewrite len_drop in E.
    cbn in E. lia. }
  rewrite (Decode_app _ (String c "") Hne one_not_cont).
  pose proof (Decode_width _ Hne) as Hw. rewrite len_drop in Hw.
  rewrite !slice_0. apply take_app.
  destruct (at_ v j >=? RuneSelf); [|lia].
  destruct (DecodeRuneInString (drop_bytes j v)) as [r' wid].
  cbn [snd] in Hw. lia.
Qed.

Lemma TrimFunc_snoc (u : string) :
  TrimFunc (u +:+ (String c "")) Unicode.IsSpace = TrimFunc u Unicode.IsSpace.
Proof.
  unfold TrimFunc, TrimLeftFunc. rewrite indexFunc_snoc.
  pose proof (indexFunc_loop_spec (len u) u 0 (le_n _)) as Hspec.
  fold (indexFunc u Unicode.IsSpace false) in Hspec.
  destruct (indexFunc u Unicode.IsSpace false) as [j|]; [|reflexivity].
  destruct Hspec as (Hj & _).
  rewrite drop_app by lia. apply TrimRightFunc_snoc.
Qed.

Lemma TrimSpace_stop_app (u w : string) (k : nat) :
  (k <= len u)%nat -> TrimSpace_stop (u +:+ w) k = TrimSpace_stop u k.
Proof.
  induction k as [|k IH]; intros Hk; [reflexivity|].
  cbn [TrimSpace_stop]. rewrite at_app_l by lia.
  rewrite !slice_0, take_app by lia.
  rewrite IH by lia. reflexivity.
Qed.

Lemma TrimSpace_snoc_space (s : string) :
  TrimSpace (s +:+ (String c "")) = TrimSpace s.
Proof.
  pose proof (asciiSpace_range _ Hc) as R.
  unfold TrimSpace. induction s as [|c0 s IH].
  { cbn [String.append].
    change (TrimSpace_start (String c "")) with (TrimSpace (String c "")).
    now rewrite TrimSpace_cons_space. }
  rewrite String_append. cbn [TrimSpace_start].
  destruct (byte_val c0 >=? RuneSelf).
  { rewrite <- String_append. apply TrimFunc_snoc. }
  destruct (negb (asciiSpace (byte_val c0))); [|exact IH].
  rewrite <- String_append. rewrite len_append.
  change (len (String c "")) with 1%nat. rewrite Nat.add_1_r.
  cbn [TrimSpace_stop].
  replace (at_ (String c0 s +:+ (String c "")) (len (String c0 s)))
    with (byte_val c).
  2:{ rewrite <- (Nat.add_0_r (len (String c0 s))). now rewrite at_app_r. }
  unfold RuneSelf. destruct (Z.geb_spec (byte_val c) 128); [lia|].
  rewrite Hc. cbn [negb]. now apply TrimSpace_stop_app.
Qed.

End Snoc.

(** ** The errors [fmt.Errorf] builds *)

Lemma Errorf_missing :
  Fmt.Errorf "token auth method not configured" [] = ConfigurationMissing.
Proof. reflexivity. Qed.

Lemma Errorf_invalid (cause : error) :
  Fmt.Errorf "invalid token auth configuration: %w" [Fmt.AError cause]
  = ConfigurationInvalid cause.
Proof.
  unfold Fmt.Errorf, ConfigurationInvalid. cbn.
  now rewrite append_nil_r.
Qed.

Lemma Errorf_empty_path : Fmt.Errorf "file path is empty" [] = EmptyFilePath.
Proof. reflexivity. Qed.

Lemma Errorf_unreadable (filePath : string) (cause : error) :
  Fmt.Errorf "failed to read token file %s: %w"
    [Fmt.AString filePath; Fmt.AError cause]
  = FileUnreadable filePath cause.
Proof.
  unfold Fmt.Errorf, FileUnreadable. cbn.
  now rewrite append_nil_r.
Qed.

Lemma Errorf_blank (filePath : string) :
  Fmt.Errorf "token file %s is empty or contains only whitespace"
    [Fmt.AString filePath]
  = EmptyOrWhitespaceToken filePath.
Proof. reflexivity. Qed.

(** ** What [readTokenFile] computes *)

#[local] Arguments Strings.TrimSpace : simpl never.
#[local] Arguments Fmt.Errorf : simpl never.
#[local] Arguments string_of_list_byte : simpl never.
#[local] Arguments read_file : simpl never.

Lemma read_file_contents (w : World) (name : string) (data : list Byte.byte) :
  file_contents w name data -> read_file w name = (data, None).
Proof.
  intros [Hname Hfile]. unfold read_file.
  destruct (String.eqb_spec name "") as [E|_]; [contradiction|].
  now rewrite Hfile.
Qed.

Ltac unfold_M :=
  unfold os_ReadFile, logger_Error, set_authObj, set_providerNamespace,
    set_uid, this, deref, mbind, M_bind, mret, M_ret.

Lemma readTokenFile_bound (t : TokenCredentialProvider) (w : World)
    (tok : VaultAuthConfigToken) :
  bound_token t = Some tok ->
  readTokenFile t w
  = (Returned (fst (readTokenFile_result w tok)), t,
     snd (readTokenFile_result w tok)).
Proof.
  unfold bound_token, readTokenFile, readTokenFile_result. unfold_M.
  destruct (authObj t) as [a|]; [|discriminate]. intros ->.
  destruct (String.eqb (FilePath tok) ""); [reflexivity|].
  destruct (read_file w (FilePath tok)) as [data [cause|]].
  - now rewrite Errorf_unreadable.
  - destruct (String.eqb _ ""); reflexivity.
Qed.

Lemma readTokenFile_nil (t : TokenCredentialProvider) (w : World) :
  bound_token t = None ->
  readTokenFile t w = (Panicked nil_dereference, t, w).
Proof.
  unfold bound_token, readTokenFile. unfold_M.
  destruct (authObj t) as [a|]; [|reflexivity]. now intros ->.
Qed.

(** ** Round trip (C1) *)



(** ** The outcomes of [readTokenFile] (C2) *)






(** ** What [GetCreds] and [Init] compute *)

Lemma GetCreds_bound (ctx : Context) (client : Client)
    (t : TokenCredentialProvider) (w : World) (tok : VaultAuthConfigToken) :
  bound_token t = Some tok ->
  GetCreds ctx client t w
  = match readTokenFile_result w tok with
    | ((_, Some err), w') =>
        (Returned (None, Some err), t,
         record (EvLogError err "Failed to read token from file") w')
    | ((token, None), w') =>
        (Returned (Some {[ "token" := iface_string token ]}, None), t, w')
    end.
Proof.
  intros Hbound. unfold GetCreds. unfold mbind at 1. unfold M_bind.
  rewrite (readTokenFile_bound t w tok Hbound).
  destruct (readTokenFile_result w tok) as [[token [err|]] w']; reflexivity.
Qed.

Lemma GetCreds_nil (ctx : Context) (client : Client)
    (t : TokenCredentialProvider) (w : World) :
  bound_token t = None ->
  GetCreds ctx client t w = (Panicked nil_dereference, t, w).
Proof.
  intros Hnil. unfold GetCreds. unfold mbind at 1. unfold M_bind.
  now rewrite (readTokenFile_nil t w Hnil).
Qed.

(** [Init] on a configuration whose token part passes [Validate]: the
    fields are bound, then the file is read. *)
Lemma Init_valid (ctx : Context) (client : Client) (a : VaultAuth)
    (tok : VaultAuthConfigToken) (ns : string)
    (t : TokenCredentialProvider) (w : World) :
  Token (Spec a) = Some tok ->
  Validate tok = None ->
  let bound :=
    {| authObj := Some a; providerNamespace := ns; uid := uid t |} in
  Init ctx client (Some a) ns t w
  = match readTokenFile_result w tok with
    | ((_, Some err), w') => (Returned (Some err), bound, w')
    | ((_, None), w') =>
        (Returned None,
         {| authObj := Some a;
            providerNamespace := ns;
            uid := "token-file-provider" |}, w')
    end.
Proof.
  intros Htok Hvalid bound. unfold Init. unfold_M.
  rewrite Htok, Hvalid. cbn [authObj providerNamespace uid]. fold bound.
  rewrite (readTokenFile_bound bound w tok)
    by (unfold bound_token; cbn; exact Htok).
  destruct (readTokenFile_result w tok) as [[token [err|]] w']; reflexivity.
Qed.

Lemma Init_missing (ctx : Context) (client : Client) (a : VaultAuth)
    (ns : string) (t : TokenCredentialProvider) (w : World) :
  Token (Spec a) = None ->
  Init ctx client (Some a) ns t w
  = (Returned (Some ConfigurationMissing), t, w).
Proof.
  intros Htok. unfold Init. unfold_M. now rewrite Htok.
Qed.

Lemma Init_invalid (ctx : Context) (client : Client) (a : VaultAuth)
    (tok : VaultAuthConfigToken) (cause : error) (ns : string)
    (t : TokenCredentialProvider) (w : World) :
  Token (Spec a) = Some tok ->
  Validate tok = Some cause ->
  Init ctx client (Some a) ns t w
  = (Returned (Some (ConfigurationInvalid cause)), t, w).
Proof.
  intros Htok Hcause. unfold Init. unfold_M.
  now rewrite Htok, Hcause, Errorf_invalid.
Qed.

Lemma Validate_None (tok : VaultAuthConfigToken) :
  Validate tok = None <-> FilePath tok <> "".
Proof.
  unfold Validate.
  destruct (String.eqb_spec (FilePath tok) ""); split; congruence.
Qed.

(** ** The tests of the repository, on the embedding *)

(** [TestTokenCredentialProvider_Init]: the six cases of the table. *)
Example TestTokenCredentialProvider_Init :
  let run (authObj0 : VaultAuth) :=
    Init context_Background fake_Client (Some authObj0) test_namespace
      empty_provider test_world in
  (result (run (token_auth validTokenFile)) = Returned None
   /\ snd (fst (run (token_auth validTokenFile)))
      = {| authObj := Some (token_auth validTokenFile);
           providerNamespace := test_namespace;
           uid := "token-file-provider" |})
  /\ result (run token_auth_missing)
     = Returned (Some (errorString "token auth method not configured"))
  /\ result (run (token_auth ""))
     = Returned
         (Some (wrapError "invalid token auth configuration: empty filePath"
                  (errorString "empty filePath")))
  /\ result (run (token_auth "/non/existent/path"))
     = Returned
         (Some (wrapError
                  ("failed to read token file /non/existent/path: "
                   +:+ "open /non/existent/path: no such file or directory")
                  (PathError "open" "/non/existent/path"
                     (SyscallErrno ENOENT))))
  /\ result (run (token_auth emptyTokenFile))
     = Returned
         (Some (errorString
                  ("token file " +:+ emptyTokenFile
                   +:+ " is empty or contains only whitespace")))
  /\ result (run (token_auth whitespaceTokenFile))
     = Returned
         (Some (errorString
                  ("token file " +:+ whitespaceTokenFile
                   +:+ " is empty or contains only whitespace"))).
Proof. repeat split; vm_compute; reflexivity. Qed.

(** [TestTokenCredentialProvider_GetCreds]: the four cases of the
    table. *)
Example TestTokenCredentialProvider_GetCreds :
  let run (filePath : string) :=
    result (GetCreds context_Background fake_Client (test_provider filePath)
              test_world) in
  run validTokenFile
  = Returned (Some {[ "token" := iface_string "vault-token-value" ]}, None)
  /\ run tokenWithWhitespaceFile
     = Returned (Some {[ "token" := iface_string "vault-token-value" ]},
                 None)
  /\ run "/non/existent/path"
     = Returned
         (None,
          Some (wrapError
                  ("failed to read token file /non/existent/path: "
                   +:+ "open /non/existent/path: no such file or directory")
                  (PathError "open" "/non/existent/path"
                     (SyscallErrno ENOENT))))
  /\ run emptyTokenFile
     = Returned
         (None,
          Some (errorString
                  ("token file " +:+ emptyTokenFile
                   +:+ " is empty or contains only whitespace"))).
Proof. repeat split; vm_compute; reflexivity. Qed.

(** [TestTokenCredentialProvider_readTokenFile] and
    [TestTokenCredentialProvider_readTokenFile_EmptyFilePath]. *)
Example TestTokenCredentialProvider_readTokenFile :
  let run (filePath : string) :=
    result (readTokenFile (test_provider filePath) test_world) in
  run validTokenFile = Returned ("vault-token-value", None)
  /\ run tokenWithWhitespaceFile = Returned ("vault-token-value", None)
  /\ run emptyTokenFile
     = Returned
         ("", Some (errorString
                      ("token file " +:+ emptyTokenFile
                       +:+ " is empty or contains only whitespace")))
  /\ run whitespaceTokenFile
     = Returned
         ("", Some (errorString
                      ("token file " +:+ whitespaceTokenFile
                       +:+ " is empty or contains only whitespace")))
  /\ run "" = Returned ("", Some (errorString "file path is empty")).
Proof. repeat split; vm_compute; reflexivity. Qed.

(** [TestTokenCredentialProvider_GetNamespace],
    [TestTokenCredentialProvider_GetUID] and
    [TestNewTokenCredentialProvider]. *)
Example TestTokenCredentialProvider_accessors :
  result (GetNamespace
            {| authObj := None;
               providerNamespace := "test-namespace";
               uid := "" |} test_world)
  = Returned "test-namespace"
  /\ result (GetUID
               {| authObj := None; providerNamespace := ""; uid := "test-uid" |}
               test_world)
     = Returned "test-uid"
  /\ NewTokenCredentialProvider (Some (token_auth "")) "test-namespace"
       "test-uid"
     = {| authObj := Some (token_auth "");
          providerNamespace := "test-namespace";
          uid := "test-uid" |}.
Proof. repeat split. Qed.

(** ** No partial output (C4) *)

(** C4. Whenever [GetCreds] returns an error the returned credential map
    is [nil]; a call that returns yields either no map and an error, or no
    error and the complete map of the one entry "token". *)
Theorem GetCreds_no_partial_output
    (ctx : Context) (client : Client) (t : TokenCredentialProvider)
    (w : World) (creds : option (gmap string interface))
    (err : option error) (t' : TokenCredentialProvider) (w' : World) :
  GetCreds ctx client t w = (Returned (creds, err), t', w') ->
  (is_Some err -> creds = None)
  /\ ((creds = None /\ is_Some err)
      \/ (err = None /\
          exists token : string,
            token <> "" /\ creds = Some {[ "token" := iface_string token ]})).
Proof.
  intros Hcall.
  destruct (bound_token t) as [tok|] eqn:Hbound.
  2:{ rewrite (GetCreds_nil ctx client t w Hbound) in Hcall. discriminate. }
  rewrite (GetCreds_bound ctx client t w tok Hbound) in Hcall.
  unfold readTokenFile_result in Hcall.
  destruct (String.eqb (FilePath tok) "").
  { injection Hcall as <- <- _ _. split; [reflexivity | left; eauto]. }
  destruct (read_file w (FilePath tok)) as [data [cause|]].
  { injection Hcall as <- <- _ _. split; [reflexivity | left; eauto]. }
  cbn zeta in Hcall.
  destruct (String.eqb_spec (Strings.TrimSpace (string_of_list_byte data)) "")
    as [Hblank|Htoken].
  { injection Hcall as <- <- _ _. split; [reflexivity | left; eauto]. }
  injection Hcall as <- <- _ _. split.
  - intros [e He]. discriminate.
  - right. split; [reflexivity|]. eexists. split; [exact Htoken|reflexivity].
Qed.

Lemma GetCreds_no_partial_output_witness :
  (is_Some (Some (EmptyOrWhitespaceToken emptyTokenFile))
   -> @None (gmap string interface) = None)
  /\ ((@None (gmap string interface) = None
       /\ is_Some (Some (EmptyOrWhitespaceToken emptyTokenFile)))
      \/ (Some (EmptyOrWhitespaceToken emptyTokenFile) = None /\
          exists token : string,
            token <> ""
            /\ @None (gmap string interface)
               = Some {[ "token" := iface_string token ]})).
Proof.
  apply (GetCreds_no_partial_output context_Background fake_Client
           (test_provider emptyTokenFile) test_world None
           (Some (EmptyOrWhitespaceToken emptyTokenFile))
           (test_provider emptyTokenFile)
           (record (EvLogError (EmptyOrWhitespaceToken emptyTokenFile)
                      "Failed to read token from file")
              (record (EvReadFile emptyTokenFile) test_world))).
  vm_compute. reflexivity.
Defined.

(** ** Missing and invalid configurations (C5) *)

(** C5. [Init] fails with [ConfigurationMissing], whose message contains
    "token auth method not configured", whenever the token configuration
    is absent, and with [ConfigurationInvalid], which wraps the cause
    reported by [Validate], whenever the validation fails. In both cases
    the receiver and the world are left untouched: no file has been
    read. *)
Theorem Init_rejects_missing_or_invalid
    (ctx : Context) (client : Client) (a : VaultAuth) (ns : string)
    (t : TokenCredentialProvider) (w : World) :
  (Token (Spec a) = None ->
     Init ctx client (Some a) ns t w
     = (Returned (Some ConfigurationMissing), t, w)
     /\ Contains (Error ConfigurationMissing)
          "token auth method not configured")
  /\ (forall (tok : VaultAuthConfigToken) (cause : error),
        Token (Spec a) = Some tok ->
        Validate tok = Some cause ->
        Init ctx client (Some a) ns t w
        = (Returned (Some (ConfigurationInvalid cause)), t, w)
        /\ Unwrap (ConfigurationInvalid cause) = Some cause
        /\ Error (ConfigurationInvalid cause)
           = "invalid token auth configuration: " +:+ Error cause).
Proof.
  split.
  - intros Htok. split; [now apply Init_missing|].
    exists "", "". reflexivity.
  - intros tok cause Htok Hcause.
    split; [now apply (Init_invalid ctx client a tok)|].
    split; reflexivity.
Qed.

(** The two cases on the configurations of the test suite. *)
Lemma Init_rejects_missing_or_invalid_witness :
  Init context_Background fake_Client (Some token_auth_missing)
    test_namespace empty_provider test_world
  = (Returned (Some (errorString "token auth method not configured")),
     empty_provider, test_world)
  /\ Init context_Background fake_Client (Some (token_auth ""))
       test_namespace empty_provider test_world
     = (Returned
          (Some (wrapError
                   "invalid token auth configuration: empty filePath"
                   (errorString "empty filePath"))),
        empty_provider, test_world).
Proof.
  split.
  - destruct (Init_rejects_missing_or_invalid context_Background fake_Client
                token_auth_missing test_namespace empty_provider test_world)
      as [H _].
    apply H. reflexivity.
  - destruct (Init_rejects_missing_or_invalid context_Background fake_Client
                (token_auth "") test_namespace empty_provider test_world)
      as [_ H].
    apply (H {| FilePath := "" |} (errorString "empty filePath"));
      reflexivity.
Defined.

(** ** Nil configurations (C10) *)

(** C10. On a receiver whose [authObj] is [nil], or whose
    [authObj.Spec.Token] is [nil], [readTokenFile] and [GetCreds]
    dereference a nil pointer: they panic and return neither credentials
    nor an error. On a receiver bound to a token configuration [GetCreds]
    always returns: a credential map or an error. *)
Theorem GetCreds_total_iff_bound
    (ctx : Context) (client : Client) (t : TokenCredentialProvider)
    (w : World) :
  ((authObj t = None
    \/ exists a : VaultAuth, authObj t = Some a /\ Token (Spec a) = None) ->
     readTokenFile t w = (Panicked nil_dereference, t, w)
     /\ GetCreds ctx client t w = (Panicked nil_dereference, t, w))
  /\ ((exists (a : VaultAuth) (tok : VaultAuthConfigToken),
         authObj t = Some a /\ Token (Spec a) = Some tok) ->
      exists (creds : option (gmap string interface)) (err : option error)
             (w' : World),
        GetCreds ctx client t w = (Returned (creds, err), t, w')
        /\ (is_Some creds \/ is_Some err)).
Proof.
  split.
  - intros Hnil.
    assert (bound_token t = None) as Hbound.
    { unfold bound_token. destruct Hnil as [-> | (a & -> & ->)]; reflexivity. }
    split; [now apply readTokenFile_nil | now apply GetCreds_nil].
  - intros (a & tok & Ha & Htok).
    assert (bound_token t = Some tok) as Hbound.
    { unfold bound_token. now rewrite Ha. }
    rewrite (GetCreds_bound ctx client t w tok Hbound).
    destruct (readTokenFile_result w tok) as [[token [err|]] w'];
      do 3 eexists; (split; [reflexivity|]); [right | left]; eauto.
Qed.

Lemma GetCreds_total_iff_bound_witness :
  GetCreds context_Background fake_Client empty_provider test_world
  = (Panicked nil_dereference, empty_provider, test_world)
  /\ exists (creds : option (gmap string interface)) (err : option error)
            (w' : World),
       GetCreds context_Background fake_Client (test_provider validTokenFile)
         test_world
       = (Returned (creds, err), test_provider validTokenFile, w')
       /\ (is_Some creds \/ is_Some err).
Proof.
  split.
  - destruct (GetCreds_total_iff_bound context_Background fake_Client
                empty_provider test_world) as [H _].
    apply H. left. reflexivity.
  - destruct (GetCreds_total_iff_bound context_Background fake_Client
                (test_provider validTokenFile) test_world) as [_ H].
    apply H. do 2 eexists. split; reflexivity.
Defined.

(** A receiver without configuration and one whose configuration lacks
    the token part both panic. *)
Example GetCreds_panics_on_nil :
  GetCreds context_Background fake_Client empty_provider test_world
  = (Panicked nil_dereference, empty_provider, test_world)
  /\ GetCreds context_Background fake_Client
       (NewTokenCredentialProvider (Some token_auth_missing) "ns" "uid")
       test_world
     = (Panicked nil_dereference,
        NewTokenCredentialProvider (Some token_auth_missing) "ns" "uid",
        test_world).
Proof. split; reflexivity. Qed.

(** ** The fixed identifier (C8) *)

Lemma Init_success (ctx : Context) (client : Client)
    (authObj0 : option VaultAuth) (ns : string)
    (t : TokenCredentialProvider) (w : World)
    (t' : TokenCredentialProvider) (w' : World) :
  Init ctx client authObj0 ns t w = (Returned None, t', w') ->
  t' = {| authObj := authObj0;
          providerNamespace := ns;
          uid := "token-file-provider" |}.
Proof.
  intros Hinit. destruct authObj0 as [a|]; [|discriminate].
  destruct (Token (Spec a)) as [tok|] eqn:Htok.
  2:{ rewrite (Init_missing ctx client a ns t w Htok) in Hinit.
      discriminate. }
  destruct (Validate tok) as [cause|] eqn:Hvalid.
  { rewrite (Init_invalid ctx client a tok cause ns t w Htok Hvalid) in Hinit.
    discriminate. }
  rewrite (Init_valid ctx client a tok ns t w Htok Hvalid) in Hinit.
  destruct (readTokenFile_result w tok) as [[token [err|]] w1];
    [discriminate|].
  now injection Hinit as <- _.
Qed.

(** C8. After every successful [Init], [GetUID] returns the literal
    "token-file-provider" whatever file path and namespace were bound; two
    providers initialised successfully report the same identifier. *)
Theorem Init_fixed_uid
    (ctx : Context) (client : Client)
    (authObj1 authObj2 : option VaultAuth) (ns1 ns2 : string)
    (t1 t2 t1' t2' : TokenCredentialProvider) (w1 w2 w1' w2' : World) :
  Init ctx client authObj1 ns1 t1 w1 = (Returned None, t1', w1') ->
  Init ctx client authObj2 ns2 t2 w2 = (Returned None, t2', w2') ->
  forall wa wb : World,
    GetUID t1' wa = (Returned "token-file-provider", t1', wa)
    /\ fst (fst (GetUID t1' wa)) = fst (fst (GetUID t2' wb)).
Proof.
  intros H1 H2 wa wb.
  apply Init_success in H1, H2. subst t1' t2'. split; reflexivity.
Qed.

Lemma Init_fixed_uid_witness :
  let t1' := {| authObj := Some (token_auth validTokenFile);
                providerNamespace := "ns-a";
                uid := "token-file-provider" |} in
  let t2' := {| authObj := Some (token_auth tokenWithWhitespaceFile);
                providerNamespace := "ns-b";
                uid := "token-file-provider" |} in
  GetUID t1' test_world = (Returned "token-file-provider", t1', test_world)
  /\ fst (fst (GetUID t1' test_world)) = fst (fst (GetUID t2' test_world)).
Proof.
  intros t1' t2'.
  apply (Init_fixed_uid context_Background fake_Client
           (Some (token_auth validTokenFile))
           (Some (token_auth tokenWithWhitespaceFile)) "ns-a" "ns-b"
           empty_provider (NewTokenCredentialProvider None "old" "old-uid")
           t1' t2' test_world test_world
           (record (EvReadFile validTokenFile) test_world)
           (record (EvReadFile tokenWithWhitespaceFile) test_world));
    vm_compute; reflexivity.
Defined.

(** ** Accessors (C9) *)

Lemma GetCreds_receiver (ctx : Context) (client : Client)
    (t : TokenCredentialProvider) (w : World) :
  snd (fst (GetCreds ctx client t w)) = t.
Proof.
  destruct (bound_token t) as [tok|] eqn:Hbound.
  - rewrite (GetCreds_bound ctx client t w tok Hbound).
    destruct (readTokenFile_result w tok) as [[token [err|]] w'];
      reflexivity.
  - now rewrite (GetCreds_nil ctx client t w Hbound).
Qed.

Lemma after_GetCreds_id (ctx : Context) (client : Client)
    (worlds : list World) (t : TokenCredentialProvider) :
  after_GetCreds ctx client worlds t = t.
Proof.
  induction worlds as [|w worlds IH]; cbn [after_GetCreds]; [reflexivity|].
  now rewrite GetCreds_receiver.
Qed.

(** C9. [GetNamespace] and [GetUID] always return, with the fields of
    the receiver, and change nothing; [GetCreds] writes no field of the
    receiver. Hence after any number of [GetCreds] calls the accessors
    still return what the constructor or the last successful [Init]
    bound. *)
Theorem accessors_pure (ctx : Context) (client : Client) :
  (forall (t : TokenCredentialProvider) (w : World),
     GetNamespace t w = (Returned (providerNamespace t), t, w)
     /\ GetUID t w = (Returned (uid t), t, w))
  /\ (forall (t : TokenCredentialProvider) (w : World),
        snd (fst (GetCreds ctx client t w)) = t)
  /\ (forall (a : option VaultAuth) (ns : string) (u : UID)
             (worlds : list World) (w : World),
        let t :=
          after_GetCreds ctx client worlds
            (NewTokenCredentialProvider a ns u) in
        GetNamespace t w = (Returned ns, t, w)
        /\ GetUID t w = (Returned u, t, w))
  /\ (forall (a : option VaultAuth) (ns : string)
             (t0 t1 : TokenCredentialProvider) (w0 w1 : World)
             (worlds : list World) (w : World),
        Init ctx client a ns t0 w0 = (Returned None, t1, w1) ->
        let t := after_GetCreds ctx client worlds t1 in
        GetNamespace t w = (Returned ns, t, w)
        /\ GetUID t w = (Returned "token-file-provider", t, w)).
Proof.
  split; [|split; [|split]].
  - intros t w. split; reflexivity.
  - apply GetCreds_receiver.
  - intros a ns u worlds w t. subst t. rewrite after_GetCreds_id.
    split; reflexivity.
  - intros a ns t0 t1 w0 w1 worlds w Hinit t. subst t.
    rewrite after_GetCreds_id. apply Init_success in Hinit. subst t1.
    split; reflexivity.
Qed.

Lemma accessors_pure_witness :
  let t1 := {| authObj := Some (token_auth validTokenFile);
               providerNamespace := test_namespace;
               uid := "token-file-provider" |} in
  let t :=
    after_GetCreds context_Background fake_Client
      [test_world; record (EvReadFile validTokenFile) test_world] t1 in
  GetNamespace t test_world = (Returned test_namespace, t, test_world)
  /\ GetUID t test_world = (Returned "token-file-provider", t, test_world).
Proof.
  intros t1 t.
  destruct (accessors_pure context_Background fake_Client) as (_ & _ & _ & H).
  apply (H (Some (token_auth validTokenFile)) test_namespace empty_provider
           t1 test_world (record (EvReadFile validTokenFile) test_world)).
  vm_compute. reflexivity.
Defined.

(** Three [GetCreds] calls, one of them after the token file has gone,
    between a successful [Init] and the accessors. *)
Example accessors_after_GetCreds :
  let t1 := {| authObj := Some (token_auth validTokenFile);
               providerNamespace := test_namespace;
               uid := "token-file-provider" |} in
  let gone := {| files := ∅; trace := [] |} in
  Init context_Background fake_Client (Some (token_auth validTokenFile))
    test_namespace empty_provider test_world
  = (Returned None, t1, record (EvReadFile validTokenFile) test_world)
  /\ fst (fst (GetNamespace
                 (after_GetCreds context_Background fake_Client
                    [test_world; gone; test_world] t1) gone))
     = Returned test_namespace
  /\ fst (fst (GetUID
                 (after_GetCreds context_Background fake_Client
                    [test_world; gone; test_world] t1) gone))
     = Returned "token-file-provider".
Proof. repeat split; vm_compute; reflexivity. Qed.

(** ** Fail-fast equivalence (C3) *)

Lemma read_file_files (w w' : World) (name : string) :
  files w' = files w -> read_file w' name = read_file w name.
Proof. intros Hfiles. unfold read_file. now rewrite Hfiles. Qed.

Lemma readTokenFile_result_files (w w' : World) (tok : VaultAuthConfigToken) :
  files w' = files w ->
  fst (readTokenFile_result w' tok) = fst (readTokenFile_result w tok).
Proof.
  intros Hfiles. unfold readTokenFile_result.
  rewrite (read_file_files w w' _ Hfiles).
  destruct (String.eqb (FilePath tok) ""); [reflexivity|].
  destruct (read_file w (FilePath tok)) as [data [cause|]]; [reflexivity|].
  cbn zeta. destruct (String.eqb _ ""); reflexivity.
Qed.

Lemma readTokenFile_result_invalid (w : World) (tok : VaultAuthConfigToken)
    (cause : error) :
  Validate tok = Some cause ->
  readTokenFile_result w tok = (("", Some EmptyFilePath), w).
Proof.
  unfold Validate, readTokenFile_result.
  destruct (String.eqb (FilePath tok) ""); [reflexivity | discriminate].
Qed.

(** C3, as the code has it. For a configuration whose token part is
    present, [Init] returns an error if and only if a fresh
    [readTokenFile] on a provider bound to that configuration, with the
    files unchanged, returns an error (invalid configuration, unreadable
    file, empty or blank file). For a configuration whose token part is
    missing, [Init] returns an error whereas [readTokenFile] panics on the
    nil pointer. *)
Theorem Init_fails_iff_readTokenFile_fails
    (ctx : Context) (client : Client) (a : VaultAuth) (ns : string)
    (t0 t : TokenCredentialProvider) (w w' : World) :
  authObj t = Some a ->
  files w' = files w ->
  match Token (Spec a) with
  | Some _ =>
      Init_fails ctx client (Some a) ns t0 w <-> readTokenFile_fails t w'
  | None =>
      Init_fails ctx client (Some a) ns t0 w
      /\ readTokenFile t w' = (Panicked nil_dereference, t, w')
  end.
Proof.
  intros Ha Hfiles. destruct (Token (Spec a)) as [tok|] eqn:Htok.
  - assert (bound_token t = Some tok) as Hbound.
    { unfold bound_token. now rewrite Ha. }
    unfold Init_fails, readTokenFile_fails.
    rewrite (readTokenFile_bound t w' tok Hbound).
    rewrite (readTokenFile_result_files w w' tok Hfiles).
    destruct (Validate tok) as [cause|] eqn:Hvalid.
    + rewrite (Init_invalid ctx client a tok cause ns t0 w Htok Hvalid).
      rewrite (readTokenFile_result_invalid w tok cause Hvalid).
      split; intros _; repeat eexists.
    + rewrite (Init_valid ctx client a tok ns t0 w Htok Hvalid).
      destruct (readTokenFile_result w tok) as [[token [err|]] w1];
        cbn [fst snd].
      * split; intros _; repeat eexists.
      * split.
        -- intros (err & t' & w2 & H). discriminate.
        -- intros (s & err & t' & w2 & H). discriminate.
  - split.
    + unfold Init_fails.
      rewrite (Init_missing ctx client a ns t0 w Htok). repeat eexists.
    + apply readTokenFile_nil. unfold bound_token. now rewrite Ha.
Qed.

Lemma Init_fails_iff_readTokenFile_fails_witness :
  Init_fails context_Background fake_Client
    (Some (token_auth "/non/existent/path")) test_namespace empty_provider
    test_world
  <-> readTokenFile_fails (test_provider "/non/existent/path")
        (record (EvReadFile "/non/existent/path") test_world).
Proof.
  apply (Init_fails_iff_readTokenFile_fails context_Background fake_Client
           (token_auth "/non/existent/path") test_namespace empty_provider
           (test_provider "/non/existent/path") test_world
           (record (EvReadFile "/non/existent/path") test_world));
    reflexivity.
Defined.

(** C3 as stated fails where the token configuration is missing: [Init]
    returns an error, [readTokenFile] on a provider bound to the same
    configuration returns none, it panics. *)
Lemma fail_fast_missing_config_counterexample :
  ~ (Init_fails context_Background fake_Client (Some token_auth_missing)
       test_namespace empty_provider test_world
     <-> readTokenFile_fails
           (NewTokenCredentialProvider (Some token_auth_missing)
              test_namespace "")
           test_world).
Proof.
  intros [Hfwd _].
  destruct Hfwd as (s & err & t' & w' & Hcall).
  - repeat eexists.
  - discriminate.
Qed.

(** ** The receiver after a failed [Init] (C7) *)

(** C7, as the code has it. When [Init] returns an error, [uid] is
    unchanged. The other two fields are unchanged when the error is the
    missing or the invalid configuration; when the error comes from the
    fail-fast read of the file, [authObj] and [providerNamespace] already
    hold the arguments of the call. *)
Theorem Init_error_receiver
    (ctx : Context) (client : Client) (a : VaultAuth) (ns : string)
    (t : TokenCredentialProvider) (w : World) (err : error)
    (t' : TokenCredentialProvider) (w' : World) :
  Init ctx client (Some a) ns t w = (Returned (Some err), t', w') ->
  uid t' = uid t
  /\ match Token (Spec a) with
     | None => t' = t
     | Some tok =>
         match Validate tok with
         | Some _ => t' = t
         | None => authObj t' = Some a /\ providerNamespace t' = ns
         end
     end.
Proof.
  intros Hinit. destruct (Token (Spec a)) as [tok|] eqn:Htok.
  2:{ rewrite (Init_missing ctx client a ns t w Htok) in Hinit.
      injection Hinit as _ <- _. split; reflexivity. }
  destruct (Validate tok) as [cause|] eqn:Hvalid.
  { rewrite (Init_invalid ctx client a tok cause ns t w Htok Hvalid) in Hinit.
    injection Hinit as _ <- _. split; reflexivity. }
  rewrite (Init_valid ctx client a tok ns t w Htok Hvalid) in Hinit.
  destruct (readTokenFile_result w tok) as [[token [err1|]] w1];
    [|discriminate].
  injection Hinit as _ <- _. repeat split.
Qed.

Lemma Init_error_receiver_witness :
  uid (test_provider "/non/existent/path") = uid empty_provider
  /\ authObj (test_provider "/non/existent/path")
     = Some (token_auth "/non/existent/path")
  /\ providerNamespace (test_provider "/non/existent/path") = test_namespace.
Proof.
  apply (Init_error_receiver context_Background fake_Client
           (token_auth "/non/existent/path") test_namespace empty_provider
           test_world
           (FileUnreadable "/non/existent/path"
              (PathError "open" "/non/existent/path" (SyscallErrno ENOENT)))
           (test_provider "/non/existent/path")
           (record (EvReadFile "/non/existent/path") test_world)).
  vm_compute. reflexivity.
Defined.

(** C7 as stated fails when the file cannot be read: [Init] on an empty
    provider returns the error and leaves the provider with the
    configuration and the namespace bound. *)
Lemma Init_error_binds_fields_counterexample :
  exists (err : error) (t' : TokenCredentialProvider) (w' : World),
    Init context_Background fake_Client
      (Some (token_auth "/non/existent/path")) test_namespace
      empty_provider test_world
    = (Returned (Some err), t', w')
    /\ t' <> empty_provider
    /\ authObj t' = Some (token_auth "/non/existent/path")
    /\ providerNamespace t' = test_namespace.
Proof.
  do 3 eexists. split; [vm_compute; reflexivity|].
  split; [discriminate | split; reflexivity].
Qed.

(** ** White space of any kind around a string *)

(** The offset the first loop starts from is only added to its result. *)
Lemma indexFunc_loop_shift (fuel : nat) (rest : string) (i : nat) :
  indexFunc_loop fuel rest Unicode.IsSpace false i
  = option_map (Nat.add i)
      (indexFunc_loop fuel rest Unicode.IsSpace false 0).
Proof.
  revert rest i. induction fuel as [|fuel IH]; intros rest i; [reflexivity|].
  cbn [indexFunc_loop].
  destruct (len rest =? 0)%nat; [reflexivity|].
  destruct (DecodeRuneInString rest) as [r size].
  destruct (Bool.eqb (Unicode.IsSpace r) false).
  - cbn. f_equal. lia.
  - rewrite (IH _ (i + size)%nat), (IH _ (0 + size)%nat).
    destruct (indexFunc_loop fuel _ _ _ 0) as [j|]; cbn; [f_equal; lia|].
    reflexivity.
Qed.

(** On white space only, the first loop finds nothing. *)
Lemma indexFunc_loop_white_space (s : string) :
  white_space s ->
  forall (fuel i : nat), indexFunc_loop fuel s Unicode.IsSpace false i = None.
Proof.
  induction 1 as [|r s Hsp _ IH]; intros [|fuel] i; try reflexivity.
  cbn [indexFunc_loop].
  destruct (len (EncodeRune r +:+ s) =? 0)%nat; [reflexivity|].
  rewrite Decode_encode_space by exact Hsp. rewrite Hsp. cbn [Bool.eqb].
  rewrite drop_app_len. apply IH.
Qed.

Lemma TrimLeftFunc_space_cons (r : Z) (x : string) :
  Unicode.IsSpace r = true ->
  TrimLeftFunc (EncodeRune r +:+ x) Unicode.IsSpace
  = TrimLeftFunc x Unicode.IsSpace.
Proof.
  intros Hsp. pose proof (EncodeRune_space_len r Hsp) as Hlen.
  unfold TrimLeftFunc, indexFunc. rewrite len_append.
  destruct (len (EncodeRune r) + len x)%nat as [|fuel] eqn:Hfuel; [lia|].
  cbn [indexFunc_loop]. rewrite len_append, Hfuel.
  change (S fuel =? 0)%nat with false. cbv iota.
  rewrite Decode_encode_space by exact Hsp. rewrite Hsp. cbn [Bool.eqb].
  rewrite drop_app_len.
  rewrite (indexFunc_loop_fuel _ _ fuel (len x)) by lia.
  rewrite indexFunc_loop_shift.
  destruct (indexFunc_loop (len x) x _ _ 0) as [j|]; cbn [option_map];
    [|reflexivity].
  rewrite <- drop_drop. cbn [Nat.add]. now rewrite drop_app_len.
Qed.

(** White space behind the string is not seen by the first loop before
    the string is used up. *)
Lemma indexFunc_loop_app (post : string) (fuel fuel' : nat) (rest : string)
    (i : nat) :
  white_space post ->
  (len rest <= fuel)%nat -> (len rest + len post <= fuel')%nat ->
  indexFunc_loop fuel' (rest +:+ post) Unicode.IsSpace false i
  = indexFunc_loop fuel rest Unicode.IsSpace false i.
Proof.
  intros Hpost. pose proof (white_space_first post Hpost) as Hfirst.
  revert fuel' rest i.
  induction fuel as [|fuel IH]; intros fuel' rest i Hfuel Hfuel'.
  { assert (rest = "") as -> by (apply len_0; lia).
    now apply indexFunc_loop_white_space. }
  destruct (String.eqb_spec rest "") as [->|Hne].
  { cbn [String.append]. rewrite indexFunc_loop_white_space by exact Hpost.
    reflexivity. }
  assert (1 <= len rest)%nat
    by (destruct rest; [congruence | cbn; lia]).
  destruct fuel' as [|fuel']; [lia|].
  cbn [indexFunc_loop]. rewrite len_append.
  destruct (Nat.eqb_spec (len rest + len post) 0) as [E|_]; [lia|].
  destruct (Nat.eqb_spec (len rest) 0) as [E|_]; [lia|].
  rewrite (Decode_app rest post Hne Hfirst).
  pose proof (Decode_width rest Hne) as Hw.
  destruct (DecodeRuneInString rest) as [r size]. cbn [snd] in Hw.
  destruct (Bool.eqb (Unicode.IsSpace r) false); [reflexivity|].
  rewrite drop_app by lia.
  apply IH; rewrite len_drop; lia.
Qed.

Lemma TrimLeftFunc_app (u post : string) :
  white_space post ->
  TrimLeftFunc (u +:+ post) Unicode.IsSpace
  = match indexFunc u Unicode.IsSpace false with
    | Some j => drop_bytes j u +:+ post
    | None => ""
    end.
Proof.
  intros Hpost. unfold TrimLeftFunc, indexFunc.
  rewrite (indexFunc_loop_app post (len u)) by
    (try exact Hpost; try rewrite len_append; lia).
  pose proof (indexFunc_loop_spec (len u) u 0 (le_n _)) as Hspec.
  destruct (indexFunc_loop (len u) u _ _ 0) as [j|]; [|reflexivity].
  destruct Hspec as (Hj & _). apply drop_app. lia.
Qed.

Lemma lastIndexFunc_space_snoc (r : Z) (v : string) :
  Unicode.IsSpace r = true ->
  lastIndexFunc (v +:+ EncodeRune r) Unicode.IsSpace false
  = lastIndexFunc v Unicode.IsSpace false.
Proof.
  intros Hsp. pose proof (EncodeRune_space_len r Hsp) as Hlen.
  unfold lastIndexFunc. rewrite len_append.
  destruct (len v + len (EncodeRune r))%nat as [|fuel] eqn:Hfuel; [lia|].
  cbn [lastIndexFunc_loop]. change (0 <? S fuel)%nat with true. cbv iota.
  rewrite slice_0.
  rewrite take_all by (rewrite len_append; lia).
  rewrite DecodeLast_encode_space by exact Hsp.
  rewrite Hsp. cbn [Bool.eqb].
  replace (S fuel - len (EncodeRune r))%nat with (len v) by lia.
  rewrite (lastIndexFunc_loop_fuel _ _ fuel (len v))
    by (try rewrite len_append; lia).
  now apply lastIndexFunc_loop_app.
Qed.

Lemma TrimRightFunc_space_snoc (r : Z) (v : string) :
  Unicode.IsSpace r = true ->
  TrimRightFunc (v +:+ EncodeRune r) Unicode.IsSpace
  = TrimRightFunc v Unicode.IsSpace.
Proof.
  intros Hsp.
  unfold TrimRightFunc. rewrite lastIndexFunc_space_snoc by exact Hsp.
  pose proof (lastIndexFunc_loop_spec (len v) v (len v) (le_n _) (le_n _))
    as Hspec.
  fold (lastIndexFunc v Unicode.IsSpace false) in Hspec.
  destruct (lastIndexFunc v Unicode.IsSpace false) as [j|]; [|reflexivity].
  destruct Hspec as (i' & r' & Hj & _).
  rewrite at_app_l by lia. rewrite drop_app by lia.
  assert (drop_bytes j v <> "") as Hne.
  { intros E. apply (f_equal len) in E. rewrite len_drop in E.
    cbn in E. lia. }
  assert (~ cont (at_ (EncodeRune r) 0)) as Hfirst.
  { rewrite <- (append_nil_r (EncodeRune r)).
    now apply EncodeRune_space_first. }
  rewrite (Decode_app _ (EncodeRune r) Hne Hfirst).
  pose proof (Decode_width _ Hne) as Hw. rewrite len_drop in Hw.
  rewrite !slice_0. apply take_app.
  destruct (at_ v j >=? RuneSelf); [|lia].
  destruct (DecodeRuneInString (drop_bytes j v)) as [r'' wid].
  cbn [snd] in Hw. lia.
Qed.

Lemma TrimRightFunc_app (post : string) :
  white_space post ->
  forall v : string,
    TrimRightFunc (v +:+ post) Unicode.IsSpace
    = TrimRightFunc v Unicode.IsSpace.
Proof.
  induction 1 as [|r s Hsp _ IH]; intros v.
  - now rewrite append_nil_r.
  - rewrite <- append_assoc, IH. now apply TrimRightFunc_space_snoc.
Qed.

Lemma TrimFunc_app (u post : string) :
  white_space post ->
  TrimFunc (u +:+ post) Unicode.IsSpace = TrimFunc u Unicode.IsSpace.
Proof.
  intros Hpost. unfold TrimFunc. rewrite TrimLeftFunc_app by exact Hpost.
  unfold TrimLeftFunc.
  destruct (indexFunc u Unicode.IsSpace false) as [j|]; [|reflexivity].
  now apply TrimRightFunc_app.
Qed.

Lemma TrimFunc_white_space_cons (pre : string) :
  white_space pre ->
  forall s : string,
    TrimFunc (pre +:+ s) Unicode.IsSpace = TrimFunc s Unicode.IsSpace.
Proof.
  induction 1 as [|r p Hsp _ IH]; intros s; [reflexivity|].
  rewrite append_assoc. unfold TrimFunc.
  rewrite TrimLeftFunc_space_cons by exact Hsp. apply IH.
Qed.

(** *** The fast path of [TrimSpace] agrees with [TrimFunc] *)

Lemma TrimLeftFunc_fixed (s : string) :
  ~ starts_with_space s -> TrimLeftFunc s Unicode.IsSpace = s.
Proof.
  intros Hns. destruct (TrimLeftFunc_spec s) as (pre & E & Hpre & _).
  destruct (String.eqb_spec pre "") as [->|Hp]; [now rewrite E at 2|].
  exfalso. apply Hns.
  destruct (white_space_starts pre Hpre Hp) as (r & rest & Hr & ->).
  exists r, (rest +:+ TrimLeftFunc s Unicode.IsSpace). split; [exact Hr|].
  now rewrite E at 1; rewrite append_assoc.
Qed.

Lemma TrimRightFunc_fixed (s : string) :
  ~ ends_with_space s -> TrimRightFunc s Unicode.IsSpace = s.
Proof.
  intros Hne. destruct (TrimRightFunc_spec s) as (post & E & Hpost & _).
  destruct (String.eqb_spec post "") as [->|Hp].
  { rewrite append_nil_r in E. now rewrite E at 2. }
  exfalso. apply Hne.
  destruct (white_space_ends post Hpost Hp) as (r & init & Hr & ->).
  exists r, (TrimRightFunc s Unicode.IsSpace +:+ init). split; [exact Hr|].
  now rewrite E at 1; rewrite append_assoc.
Qed.

Lemma TrimSpace_stop_TrimRightFunc (u : string) (k : nat) :
  (k <= len u)%nat ->
  TrimSpace_stop u k = TrimRightFunc (take_bytes k u) Unicode.IsSpace.
Proof.
  induction k as [|k IH]; intros Hk; [reflexivity|].
  cbn [TrimSpace_stop]. rewrite slice_0.
  pose proof (at_range u k) as R. unfold RuneSelf.
  destruct (Z.geb_spec (at_ u k) 128) as [Hhigh|Hlow]; [reflexivity|].
  destruct (asciiSpace (at_ u k)) eqn:Hsp; cbn [negb].
  - rewrite IH by lia. rewrite (take_S u k) by lia.
    symmetry. unfold bytes1. apply TrimRightFunc_snoc.
    now rewrite byte_of_val_range by lia.
  - symmetry. apply TrimRightFunc_fixed.
    rewrite ends_with_space_DecodeLast. rewrite take_S by lia.
    unfold bytes1. rewrite DecodeLast_ascii; rewrite byte_of_val_range by lia;
      [|lia].
    cbn [fst]. rewrite IsSpace_ascii by lia. congruence.
Qed.

(** [TrimSpace] is [TrimFunc] with [unicode.IsSpace]: the loops over the
    ASCII bytes are a short cut only. *)
Lemma TrimSpace_TrimFunc (s : string) :
  TrimSpace s = TrimFunc s Unicode.IsSpace.
Proof.
  unfold TrimSpace. induction s as [|c0 s IH]; [reflexivity|].
  cbn [TrimSpace_start]. unfold RuneSelf.
  pose proof (byte_val_range c0) as R.
  destruct (Z.geb_spec (byte_val c0) 128) as [Hhigh|Hlow]; [reflexivity|].
  destruct (asciiSpace (byte_val c0)) eqn:Hsp; cbn [negb].
  - rewrite IH. symmetry.
    change (String c0 s) with (String c0 "" +:+ s).
    apply TrimFunc_white_space_cons. now apply bytes1_space.
  - rewrite TrimSpace_stop_TrimRightFunc by lia.
    rewrite take_all by lia. unfold TrimFunc.
    rewrite TrimLeftFunc_fixed; [reflexivity|].
    rewrite starts_with_space_Decode, Decode_ascii by lia. cbn [fst].
    rewrite IsSpace_ascii by lia. congruence.
Qed.

(** White space of any kind in front of and behind a string does not
    change what [TrimSpace] returns. *)
Lemma TrimSpace_surrounded (pre s post : string) :
  white_space pre -> white_space post ->
  TrimSpace (pre +:+ s +:+ post) = TrimSpace s.
Proof.
  intros Hpre Hpost. rewrite !TrimSpace_TrimFunc.
  rewrite TrimFunc_white_space_cons by exact Hpre.
  now apply TrimFunc_app.
Qed.

(** [TrimSpace] returns the empty string on white space only, and on
    nothing else. *)
Lemma TrimSpace_blank (s : string) : TrimSpace s = "" <-> white_space s.
Proof.
  split.
  - intros E.
    destruct (TrimSpace_spec s) as (pre & post & Es & Hpre & Hpost & _).
    rewrite E in Es. rewrite Es. now apply white_space_app.
  - intros Hs. rewrite <- (append_nil_r s).
    change (s +:+ "") with (s +:+ "" +:+ "").
    rewrite TrimSpace_surrounded; [reflexivity | exact Hs | constructor].
Qed.

(** ** White space around the token (C6) *)

Lemma GetCreds_of_file (ctx : Context) (client : Client)
    (t : TokenCredentialProvider) (w : World) (tok : VaultAuthConfigToken)
    (data : list Byte.byte) :
  bound_token t = Some tok ->
  file_contents w (FilePath tok) data ->
  result (GetCreds ctx client t w)
  = let token := TrimSpace (string_of_list_byte data) in
    if String.eqb token "" then
      Returned (None, Some (EmptyOrWhitespaceToken (FilePath tok)))
    else Returned (Some {[ "token" := iface_string token ]}, None).
Proof.
  intros Hbound Hfile. unfold result.
  rewrite (GetCreds_bound ctx client t w tok Hbound).
  unfold readTokenFile_result.
  pose proof Hfile as [Hname _]. apply String.eqb_neq in Hname.
  rewrite Hname, (read_file_contents _ _ _ Hfile). cbn zeta.
  destruct (String.eqb (TrimSpace (string_of_list_byte data)) "");
    reflexivity.
Qed.

Lemma readTokenFile_of_file (t : TokenCredentialProvider) (w : World)
    (tok : VaultAuthConfigToken) (data : list Byte.byte) :
  bound_token t = Some tok ->
  file_contents w (FilePath tok) data ->
  result (readTokenFile t w)
  = let token := TrimSpace (string_of_list_byte data) in
    if String.eqb token "" then
      Returned ("", Some (EmptyOrWhitespaceToken (FilePath tok)))
    else Returned (token, None).
Proof.
  intros Hbound Hfile. unfold result.
  rewrite (readTokenFile_bound t w tok Hbound).
  unfold readTokenFile_result.
  pose proof Hfile as [Hname _]. apply String.eqb_neq in Hname.
  rewrite Hname, (read_file_contents _ _ _ Hfile). cbn zeta.
  destruct (String.eqb (TrimSpace (string_of_list_byte data)) "");
    reflexivity.
Qed.

(** Two spaces in front and a newline and a tab behind are trimmed
    away, whatever the string. *)
Lemma TrimSpace_padded (S : string) :
  TrimSpace ("  " +:+ S +:+ LF +:+ TAB) = TrimSpace S.
Proof.
  change ("  " +:+ S +:+ LF +:+ TAB)
    with (String " " (String " " (S +:+ LF +:+ TAB))).
  rewrite !TrimSpace_cons_space by reflexivity.
  rewrite <- append_assoc. unfold LF, TAB.
  rewrite !TrimSpace_snoc_space by reflexivity. reflexivity.
Qed.

(** *** The trim of the specification *)

Lemma spec_whitespace_asciiSpace (c : ascii) :
  spec_whitespace c = true -> asciiSpace (byte_val c) = true.
Proof.
  unfold spec_whitespace, asciiSpace. cbv zeta. intros H.
  repeat (apply Bool.orb_prop in H as [H|H]);
    apply Z.eqb_eq in H; rewrite H; reflexivity.
Qed.

Lemma spec_whitespace_white_space (c : ascii) (w : string) :
  spec_whitespace c = true -> white_space w -> white_space (String c w).
Proof.
  intros Hc Hw. change (String c w) with (String c "" +:+ w).
  apply white_space_app; [|exact Hw].
  apply bytes1_space. now apply spec_whitespace_asciiSpace.
Qed.

Lemma spec_trim_left_spec (s : string) :
  exists pre : string, s = pre +:+ spec_trim_left s /\ white_space pre.
Proof.
  induction s as [|c s (pre & E & Hpre)].
  { exists "". split; [reflexivity | constructor]. }
  cbn [spec_trim_left]. destruct (spec_whitespace c) eqn:Hc.
  - exists (String c pre). split; [cbn; now rewrite <- E|].
    now apply spec_whitespace_white_space.
  - exists "". split; [reflexivity | constructor].
Qed.

Lemma spec_trim_right_spec (s : string) :
  exists post : string, s = spec_trim_right s +:+ post /\ white_space post.
Proof.
  induction s as [|c s (post & E & Hpost)].
  { exists "". split; [reflexivity | constructor]. }
  cbn [spec_trim_right]. destruct (spec_trim_right s) as [|c' r].
  - cbn [String.append] in E. destruct (spec_whitespace c) eqn:Hc.
    + exists (String c post). split; [cbn; now rewrite <- E|].
      now apply spec_whitespace_white_space.
    + exists post. split; [cbn; now rewrite <- E | exact Hpost].
  - exists post. split; [|exact Hpost]. rewrite E. reflexivity.
Qed.

(** Where the trim of the specification leaves no white space of another
    kind at either end, it is what [TrimSpace] returns. *)
Lemma TrimSpace_spec_trim (s : string) :
  ~ starts_with_space (spec_trim s) -> ~ ends_with_space (spec_trim s) ->
  TrimSpace s = spec_trim s.
Proof.
  intros Hns Hne. unfold spec_trim in *.
  destruct (spec_trim_left_spec s) as (pre & Es & Hpre).
  destruct (spec_trim_right_spec (spec_trim_left s)) as (post & Eu & Hpost).
  transitivity
    (TrimSpace (pre +:+ spec_trim_right (spec_trim_left s) +:+ post)).
  { now rewrite <- Eu, <- Es. }
  rewrite TrimSpace_surrounded by assumption. now apply TrimSpace_fixed.
Qed.

(** C6, as the code has it. White space is what [unicode.IsSpace] says:
    the spaces, tabs, newlines and carriage returns the claim lists, and
    also the vertical tab, the form feed and the other white-space
    characters of Unicode. For every string [S], a file that holds [S]
    between two spaces and a newline and a tab, and a file that holds
    [S], give the same credentials, and an error either in both cases or
    in none. When [S] has no white space at either end and is not empty
    the two outputs are identical: the credentials [{"token": S}] and no
    error. When [S] is empty or blank both calls return no credentials
    and the error of the blank file, each naming its own path, so the two
    outputs are identical only if the two paths are. The token read from
    a file is the contents of the file without a prefix and a suffix made
    of white-space characters only, and has no white space left at either
    end; it is the contents without the leading and trailing spaces,
    tabs, newlines and carriage returns whenever that leaves no other
    white space at either end. *)
Theorem GetCreds_whitespace_idempotent
    (ctx : Context) (client : Client) (t1 t2 : TokenCredentialProvider)
    (w1 w2 : World) (tok1 tok2 : VaultAuthConfigToken) (S : string) :
  bound_token t1 = Some tok1 ->
  bound_token t2 = Some tok2 ->
  file_contents w1 (FilePath tok1)
    (list_byte_of_string ("  " +:+ S +:+ LF +:+ TAB)) ->
  file_contents w2 (FilePath tok2) (list_byte_of_string S) ->
  (exists (creds : option (gmap string interface)) (err1 err2 : option error),
     result (GetCreds ctx client t1 w1) = Returned (creds, err1)
     /\ result (GetCreds ctx client t2 w2) = Returned (creds, err2)
     /\ (err1 = None <-> err2 = None)
     /\ (FilePath tok1 = FilePath tok2 -> err1 = err2)
     /\ (TrimSpace S = "" ->
         creds = None
         /\ err1 = Some (EmptyOrWhitespaceToken (FilePath tok1))
         /\ err2 = Some (EmptyOrWhitespaceToken (FilePath tok2)))
     /\ (~ starts_with_space S -> ~ ends_with_space S -> S <> "" ->
         creds = Some {[ "token" := iface_string S ]}
         /\ err1 = None /\ err2 = None))
  /\ (forall (t : TokenCredentialProvider) (w : World)
             (tok : VaultAuthConfigToken) (data : list Byte.byte)
             (token : string),
        bound_token t = Some tok ->
        file_contents w (FilePath tok) data ->
        result (readTokenFile t w) = Returned (token, None) ->
        exists pre post : string,
          string_of_list_byte data = pre +:+ token +:+ post
          /\ white_space pre /\ white_space post
          /\ ~ starts_with_space token /\ ~ ends_with_space token)
  /\ (forall (t : TokenCredentialProvider) (w : World)
             (tok : VaultAuthConfigToken) (data : list Byte.byte),
        bound_token t = Some tok ->
        file_contents w (FilePath tok) data ->
        ~ starts_with_space (spec_trim (string_of_list_byte data)) ->
        ~ ends_with_space (spec_trim (string_of_list_byte data)) ->
        spec_trim (string_of_list_byte data) <> "" ->
        result (readTokenFile t w)
        = Returned (spec_trim (string_of_list_byte data), None))
  /\ (Unicode.IsSpace 32 = true /\ Unicode.IsSpace 9 = true
      /\ Unicode.IsSpace 10 = true /\ Unicode.IsSpace 13 = true
      /\ Unicode.IsSpace 11 = true /\ Unicode.IsSpace 12 = true).
Proof.
  intros Hb1 Hb2 Hf1 Hf2. split; [|split; [|split]].
  - rewrite (GetCreds_of_file ctx client t1 w1 tok1 _ Hb1 Hf1).
    rewrite (GetCreds_of_file ctx client t2 w2 tok2 _ Hb2 Hf2).
    rewrite !string_of_list_byte_of_string. cbn zeta.
    rewrite TrimSpace_padded.
    destruct (String.eqb_spec (TrimSpace S) "") as [Hblank|Htoken].
    + do 3 eexists. split; [reflexivity|]. split; [reflexivity|].
      split; [split; discriminate|]. split; [now intros ->|].
      split; [now intros _|].
      intros Hns Hne HS. rewrite (TrimSpace_fixed S Hns Hne) in Hblank.
      contradiction.
    + do 3 eexists. split; [reflexivity|]. split; [reflexivity|].
      split; [split; reflexivity|]. split; [reflexivity|].
      split; [intros Hblank; contradiction|].
      intros Hns Hne _. now rewrite (TrimSpace_fixed S Hns Hne).
  - intros t w tok data token Hb Hf Hread.
    rewrite (readTokenFile_of_file t w tok data Hb Hf) in Hread.
    cbn zeta in Hread.
    destruct (String.eqb (TrimSpace (string_of_list_byte data)) "");
      [discriminate|].
    injection Hread as <-. apply TrimSpace_spec.
  - intros t w tok data Hb Hf Hns Hne Htoken.
    rewrite (readTokenFile_of_file t w tok data Hb Hf). cbn zeta.
    rewrite (TrimSpace_spec_trim _ Hns Hne).
    apply String.eqb_neq in Htoken. now rewrite Htoken.
  - repeat split; reflexivity.
Qed.

Lemma token_value_no_space :
  ~ starts_with_space "vault-token-value"
  /\ ~ ends_with_space "vault-token-value".
Proof.
  rewrite starts_with_space_Decode, ends_with_space_DecodeLast.
  split; vm_compute; congruence.
Qed.

Lemma GetCreds_whitespace_idempotent_witness :
  result (GetCreds context_Background fake_Client
            (test_provider paddedTokenFile) test_world)
  = Returned (Some {[ "token" := iface_string "vault-token-value" ]}, None)
  /\ result (GetCreds context_Background fake_Client
               (test_provider validTokenFile) test_world)
     = Returned (Some {[ "token" := iface_string "vault-token-value" ]},
                 None).
Proof.
  destruct token_value_no_space as [Hns Hne].
  destruct (GetCreds_whitespace_idempotent context_Background fake_Client
              (test_provider paddedTokenFile) (test_provider validTokenFile)
              test_world test_world
              {| FilePath := paddedTokenFile |}
              {| FilePath := validTokenFile |}
              "vault-token-value" eq_refl eq_refl)
    as [(creds & err1 & err2 & H1 & H2 & _ & _ & _ & HS) _].
  - split; [discriminate | vm_compute; reflexivity].
  - split; [discriminate | vm_compute; reflexivity].
  - destruct (HS Hns Hne ltac:(discriminate)) as (-> & -> & ->). now split.
Defined.

(** C6 as stated fails twice. With the white space of the claim's list,
    the contents made of a vertical tab and "tok" have nothing to trim,
    and the code returns "tok". And for the empty string, which has no
    white space at either end, the padded file and the plain file do not
    give identical outputs: each error names its own file. *)
Lemma whitespace_as_listed_counterexample :
  (spec_trim (VT +:+ "tok") = VT +:+ "tok"
   /\ result (readTokenFile (test_provider verticalTabTokenFile)
                whitespace_world)
      = Returned ("tok", None)
   /\ result (readTokenFile (test_provider verticalTabTokenFile)
                whitespace_world)
      <> Returned (spec_trim (VT +:+ "tok"), None))
  /\ (spec_trim "" = ""
      /\ file_contents whitespace_world paddedEmptyTokenFile
           (list_byte_of_string ("  " +:+ "" +:+ LF +:+ TAB))
      /\ file_contents whitespace_world emptyTokenFile
           (list_byte_of_string "")
      /\ result (GetCreds context_Background fake_Client
                   (test_provider paddedEmptyTokenFile) whitespace_world)
         = Returned
             (None, Some (EmptyOrWhitespaceToken paddedEmptyTokenFile))
      /\ result (GetCreds context_Background fake_Client
                   (test_provider emptyTokenFile) whitespace_world)
         = Returned (None, Some (EmptyOrWhitespaceToken emptyTokenFile))
      /\ result (GetCreds context_Background fake_Client
                   (test_provider paddedEmptyTokenFile) whitespace_world)
         <> result (GetCreds context_Background fake_Client
                      (test_provider emptyTokenFile) whitespace_world)).
Proof.
  split.
  - split; [reflexivity|]. split; [vm_compute; reflexivity|].
    intros H. vm_compute in H. discriminate H.
  - split; [reflexivity|].
    split; [split; [discriminate | vm_compute; reflexivity]|].
    split; [split; [discriminate | vm_compute; reflexivity]|].
    split; [vm_compute; reflexivity|]. split; [vm_compute; reflexivity|].
    intros H. vm_compute in H. discriminate H.
Qed.

(** * Further properties *)

(** ** The world after a call *)

Lemma readTokenFile_result_world (w : World) (tok : VaultAuthConfigToken) :
  snd (readTokenFile_result w tok)
  = if String.eqb (FilePath tok) "" then w
    else record (EvReadFile (FilePath tok)) w.
Proof.
  unfold readTokenFile_result.
  destruct (String.eqb (FilePath tok) ""); [reflexivity|].
  destruct (read_file w (FilePath tok)) as [data [cause|]]; [reflexivity|].
  cbn zeta. destruct (String.eqb _ ""); reflexivity.
Qed.

Lemma readTokenFile_result_token (w w' : World) (tok : VaultAuthConfigToken)
    (token : string) :
  readTokenFile_result w tok = ((token, None), w') ->
  token <> "" /\ FilePath tok <> ""
  /\ w' = record (EvReadFile (FilePath tok)) w
  /\ exists data : list Byte.byte,
       read_file w (FilePath tok) = (data, None)
       /\ token = TrimSpace (string_of_list_byte data).
Proof.
  unfold readTokenFile_result.
  destruct (String.eqb_spec (FilePath tok) "") as [|Hpath]; [discriminate|].
  destruct (read_file w (FilePath tok)) as [data [cause|]]; [discriminate|].
  cbn zeta.
  destruct (String.eqb_spec (TrimSpace (string_of_list_byte data)) "")
    as [|Htoken]; [discriminate|].
  intros [= <- <-]. repeat split; try assumption. now exists data.
Qed.

(** X1. [Init] on a configuration that is not nil always returns, never
    writes the file system and never logs: the trace is left as it was or
    has one more read, of the configured path; when [Init] returns no
    error, the token configuration is present, its path is not empty and
    the file was read exactly once. *)
Theorem Init_world (ctx : Context) (client : Client) (a : VaultAuth)
    (ns : string) (t : TokenCredentialProvider) (w : World) :
  exists (err : option error) (t' : TokenCredentialProvider) (w' : World),
    Init ctx client (Some a) ns t w = (Returned err, t', w')
    /\ files w' = files w
    /\ (trace w' = trace w
        \/ exists tok : VaultAuthConfigToken,
             Token (Spec a) = Some tok
             /\ trace w' = trace w ++ [EvReadFile (FilePath tok)])
    /\ (err = None ->
        exists tok : VaultAuthConfigToken,
          Token (Spec a) = Some tok /\ FilePath tok <> ""
          /\ trace w' = trace w ++ [EvReadFile (FilePath tok)]).
Proof.
  destruct (Token (Spec a)) as [tok|] eqn:Htok.
  2:{ rewrite (Init_missing ctx client a ns t w Htok).
      do 3 eexists. split; [reflexivity|]. split; [reflexivity|].
      split; [now left | discriminate]. }
  destruct (Validate tok) as [cause|] eqn:Hvalid.
  { rewrite (Init_invalid ctx client a tok cause ns t w Htok Hvalid).
    do 3 eexists. split; [reflexivity|]. split; [reflexivity|].
    split; [now left | discriminate]. }
  rewrite (Init_valid ctx client a tok ns t w Htok Hvalid).
  pose proof (readTokenFile_result_world w tok) as Hworld.
  destruct (readTokenFile_result w tok) as [[token [err|]] w'] eqn:Hres;
    cbn [snd] in Hworld.
  - do 3 eexists. split; [reflexivity|].
    destruct (String.eqb (FilePath tok) ""); subst w'.
    + split; [reflexivity|]. split; [now left | discriminate].
    + split; [reflexivity|]. split; [right; now exists tok | discriminate].
  - destruct (readTokenFile_result_token w w' tok token Hres)
      as (_ & Hpath & -> & _).
    do 3 eexists. split; [reflexivity|]. split; [reflexivity|].
    split; [right; now exists tok|]. intros _. now exists tok.
Qed.

(** X2. [GetCreds] on a bound provider returns and leaves the receiver
    and the files as they were; it reads the configured file exactly once
    (not at all when the path is empty) and, exactly when it returns an
    error, then logs that very error once, with the message "Failed to
    read token from file". *)
Theorem GetCreds_world (ctx : Context) (client : Client)
    (t : TokenCredentialProvider) (w : World) (tok : VaultAuthConfigToken) :
  bound_token t = Some tok ->
  exists (creds : option (gmap string interface)) (err : option error)
         (w' : World),
    GetCreds ctx client t w = (Returned (creds, err), t, w')
    /\ files w' = files w
    /\ trace w'
       = trace w
         ++ (if String.eqb (FilePath tok) "" then []
             else [EvReadFile (FilePath tok)])
         ++ match err with
            | Some e => [EvLogError e "Failed to read token from file"]
            | None => []
            end.
Proof.
  intros Hbound. rewrite (GetCreds_bound ctx client t w tok Hbound).
  pose proof (readTokenFile_result_world w tok) as Hworld.
  destruct (readTokenFile_result w tok) as [[token [err|]] w'] eqn:Hres;
    cbn [snd] in Hworld; subst w'; do 3 eexists;
    (split; [reflexivity|]);
    destruct (String.eqb (FilePath tok) ""); cbn;
    rewrite <- ?app_assoc, ?app_nil_r; split; reflexivity.
Qed.

Lemma GetCreds_world_witness :
  exists (creds : option (gmap string interface)) (err : option error)
         (w' : World),
    GetCreds context_Background fake_Client (test_provider lockedTokenFile)
      test_world
    = (Returned (creds, err), test_provider lockedTokenFile, w')
    /\ files w' = files test_world
    /\ trace w'
       = trace test_world
         ++ [EvReadFile lockedTokenFile]
         ++ match err with
            | Some e => [EvLogError e "Failed to read token from file"]
            | None => []
            end.
Proof.
  apply (GetCreds_world context_Background fake_Client
           (test_provider lockedTokenFile) test_world
           {| FilePath := lockedTokenFile |}).
  reflexivity.
Defined.

(** ** No state but the configuration and the files *)

(** X3. [GetCreds] keeps nothing between calls: what it returns is
    determined by the bound token configuration and the files of the
    moment, whatever the namespace, the identifier and the reads and log
    lines so far. *)
Theorem GetCreds_depends_on_files_only (ctx : Context) (client : Client)
    (t1 t2 : TokenCredentialProvider) (w1 w2 : World) :
  bound_token t1 = bound_token t2 ->
  files w1 = files w2 ->
  result (GetCreds ctx client t1 w1) = result (GetCreds ctx client t2 w2).
Proof.
  intros Hbound Hfiles.
  destruct (bound_token t2) as [tok|] eqn:Hb2.
  2:{ now rewrite (GetCreds_nil ctx client t1 w1 Hbound),
        (GetCreds_nil ctx client t2 w2 Hb2). }
  rewrite (GetCreds_bound ctx client t1 w1 tok Hbound),
    (GetCreds_bound ctx client t2 w2 tok Hb2).
  pose proof (readTokenFile_result_files w2 w1 tok Hfiles) as Hres.
  destruct (readTokenFile_result w1 tok) as [[token1 err1] w1'].
  destruct (readTokenFile_result w2 tok) as [[token2 err2] w2'].
  cbn [fst] in Hres. injection Hres as -> ->.
  destruct err2; reflexivity.
Qed.

Lemma GetCreds_depends_on_files_only_witness :
  result (GetCreds context_Background fake_Client
            (test_provider validTokenFile) test_world)
  = result (GetCreds context_Background fake_Client
              (NewTokenCredentialProvider (Some (token_auth validTokenFile))
                 "another-namespace" "another-uid")
              (record (EvReadFile lockedTokenFile) test_world)).
Proof.
  apply (GetCreds_depends_on_files_only context_Background fake_Client);
    reflexivity.
Defined.

(** X4. What [Init] returns is determined by the token part of the
    configuration and the files: the method the configuration names, the
    namespace, the receiver and the history play no part. *)
Theorem Init_depends_on_token_and_files (ctx : Context) (client : Client)
    (a1 a2 : VaultAuth) (ns1 ns2 : string)
    (t1 t2 : TokenCredentialProvider) (w1 w2 : World) :
  Token (Spec a1) = Token (Spec a2) ->
  files w1 = files w2 ->
  result (Init ctx client (Some a1) ns1 t1 w1)
  = result (Init ctx client (Some a2) ns2 t2 w2).
Proof.
  intros Htoken Hfiles.
  destruct (Token (Spec a2)) as [tok|] eqn:Htok.
  2:{ now rewrite (Init_missing ctx client a1 ns1 t1 w1 Htoken),
        (Init_missing ctx client a2 ns2 t2 w2 Htok). }
  destruct (Validate tok) as [cause|] eqn:Hvalid.
  { now rewrite (Init_invalid ctx client a1 tok cause ns1 t1 w1 Htoken Hvalid),
      (Init_invalid ctx client a2 tok cause ns2 t2 w2 Htok Hvalid). }
  rewrite (Init_valid ctx client a1 tok ns1 t1 w1 Htoken Hvalid),
    (Init_valid ctx client a2 tok ns2 t2 w2 Htok Hvalid).
  pose proof (readTokenFile_result_files w2 w1 tok Hfiles) as Hres.
  destruct (readTokenFile_result w1 tok) as [[token1 err1] w1'].
  destruct (readTokenFile_result w2 tok) as [[token2 err2] w2'].
  cbn [fst] in Hres. injection Hres as -> ->.
  destruct err2; reflexivity.
Qed.

Lemma Init_depends_on_token_and_files_witness :
  result (Init context_Background fake_Client
            (Some (token_auth validTokenFile)) test_namespace
            empty_provider test_world)
  = result (Init context_Background fake_Client
              (Some {| Spec :=
                         {| Method := Consts.ProviderMethodKubernetes;
                            Token := Some {| FilePath := validTokenFile |} |}
                    |})
              "another-namespace" (test_provider lockedTokenFile)
              (record (EvReadFile lockedTokenFile) test_world)).
Proof.
  apply (Init_depends_on_token_and_files context_Background fake_Client);
    reflexivity.
Defined.

(** ** [Init] and the calls after it *)

(** X5. After [Init] returned no error, [GetCreds] on the same provider
    returns a non-empty token and no error, as long as the files are what
    they were; it reads the bound file once more. *)
Theorem GetCreds_after_Init (ctx : Context) (client : Client)
    (authObj0 : option VaultAuth) (ns : string)
    (t t' : TokenCredentialProvider) (w w' w2 : World) :
  Init ctx client authObj0 ns t w = (Returned None, t', w') ->
  files w2 = files w ->
  exists (token : string) (tok : VaultAuthConfigToken),
    token <> ""
    /\ bound_token t' = Some tok
    /\ GetCreds ctx client t' w2
       = (Returned (Some {[ "token" := iface_string token ]}, None), t',
          record (EvReadFile (FilePath tok)) w2).
Proof.
  intros Hinit Hfiles. destruct authObj0 as [a|]; [|discriminate].
  destruct (Token (Spec a)) as [tok|] eqn:Htok.
  2:{ rewrite (Init_missing ctx client a ns t w Htok) in Hinit.
      discriminate. }
  destruct (Validate tok) as [cause|] eqn:Hvalid.
  { rewrite (Init_invalid ctx client a tok cause ns t w Htok Hvalid) in Hinit.
    discriminate. }
  rewrite (Init_valid ctx client a tok ns t w Htok Hvalid) in Hinit.
  destruct (readTokenFile_result w tok) as [[token [err|]] w1] eqn:Hres;
    [discriminate|].
  injection Hinit as <- _.
  destruct (readTokenFile_result_token w w1 tok token Hres)
    as (Htoken & Hpath & _ & _).
  assert (bound_token
            {| authObj := Some a; providerNamespace := ns;
               uid := "token-file-provider" |} = Some tok) as Hbound
    by exact Htok.
  exists token, tok. split; [exact Htoken|]. split; [exact Hbound|].
  rewrite (GetCreds_bound ctx client _ w2 tok Hbound).
  pose proof (readTokenFile_result_files w w2 tok Hfiles) as Hsame.
  pose proof (readTokenFile_result_world w2 tok) as Hworld.
  apply String.eqb_neq in Hpath. rewrite Hpath in Hworld.
  rewrite Hres in Hsame.
  destruct (readTokenFile_result w2 tok) as [[token2 err2] w2'].
  cbn [fst snd] in Hsame, Hworld. injection Hsame as -> ->. now subst w2'.
Qed.

Lemma GetCreds_after_Init_witness :
  exists (token : string) (tok : VaultAuthConfigToken),
    token <> ""
    /\ bound_token
         (NewTokenCredentialProvider (Some (token_auth validTokenFile))
            test_namespace "token-file-provider")
       = Some tok
    /\ GetCreds context_Background fake_Client
         (NewTokenCredentialProvider (Some (token_auth validTokenFile))
            test_namespace "token-file-provider")
         (record (EvReadFile validTokenFile) test_world)
       = (Returned (Some {[ "token" := iface_string token ]}, None),
          NewTokenCredentialProvider (Some (token_auth validTokenFile))
            test_namespace "token-file-provider",
          record (EvReadFile (FilePath tok))
            (record (EvReadFile validTokenFile) test_world)).
Proof.
  apply (GetCreds_after_Init context_Background fake_Client
           (Some (token_auth validTokenFile)) test_namespace
           empty_provider
           (NewTokenCredentialProvider (Some (token_auth validTokenFile))
              test_namespace "token-file-provider")
           test_world
           (record (EvReadFile validTokenFile) test_world)
           (record (EvReadFile validTokenFile) test_world)).
  - vm_compute. reflexivity.
  - reflexivity.
Defined.

(** X6. When [Init] fails after the configuration passed [Validate],
    it hands on the error of [readTokenFile] as it is: [GetCreds] and
    [readTokenFile] on the provider [Init] left behind return that same
    error, as long as the files are what they were. *)
Theorem GetCreds_repeats_Init_error (ctx : Context) (client : Client)
    (a : VaultAuth) (tok : VaultAuthConfigToken) (ns : string)
    (t t' : TokenCredentialProvider) (w w' w2 : World) (err : error) :
  Token (Spec a) = Some tok ->
  Validate tok = None ->
  Init ctx client (Some a) ns t w = (Returned (Some err), t', w') ->
  files w2 = files w ->
  result (GetCreds ctx client t' w2) = Returned (None, Some err)
  /\ result (readTokenFile t' w2) = Returned ("", Some err).
Proof.
  intros Htok Hvalid Hinit Hfiles.
  rewrite (Init_valid ctx client a tok ns t w Htok Hvalid) in Hinit.
  pose proof (readTokenFile_result_files w w2 tok Hfiles) as Hsame.
  assert (fst (readTokenFile_result w tok) = ("", Some err)
          /\ bound_token t' = Some tok) as [Hres Hbound].
  { unfold readTokenFile_result in *.
    destruct (String.eqb (FilePath tok) "").
    { injection Hinit as <- <- _. now split. }
    destruct (read_file w (FilePath tok)) as [data [cause|]].
    { injection Hinit as <- <- _. now split. }
    cbn zeta in *. destruct (String.eqb _ ""); [|discriminate].
    injection Hinit as <- <- _. now split. }
  rewrite Hres in Hsame. unfold result.
  rewrite (GetCreds_bound ctx client t' w2 tok Hbound),
    (readTokenFile_bound t' w2 tok Hbound).
  destruct (readTokenFile_result w2 tok) as [[token2 err2] w2'].
  cbn [fst] in Hsame. injection Hsame as -> ->. now split.
Qed.

Lemma GetCreds_repeats_Init_error_witness :
  let err := FileUnreadable lockedTokenFile
               (PathError "open" lockedTokenFile (SyscallErrno EACCES)) in
  result (GetCreds context_Background fake_Client
            (test_provider lockedTokenFile) test_world)
  = Returned (None, Some err)
  /\ result (readTokenFile (test_provider lockedTokenFile) test_world)
     = Returned ("", Some err).
Proof.
  intros err.
  apply (GetCreds_repeats_Init_error context_Background fake_Client
           (token_auth lockedTokenFile) {| FilePath := lockedTokenFile |}
           test_namespace empty_provider (test_provider lockedTokenFile)
           test_world (record (EvReadFile lockedTokenFile) test_world)
           test_world err).
  - reflexivity.
  - reflexivity.
  - vm_compute. reflexivity.
  - reflexivity.
Defined.

(** X7. [Init] panics on a nil configuration, before it touches the
    receiver or the world, and on no other: a configuration whose token
    part is nil is answered with the error "token auth method not
    configured". *)
Theorem Init_panics_iff_nil (ctx : Context) (client : Client)
    (authObj0 : option VaultAuth) (ns : string)
    (t : TokenCredentialProvider) (w : World) :
  match authObj0 with
  | None => Init ctx client authObj0 ns t w = (Panicked nil_dereference, t, w)
  | Some a =>
      exists (err : option error) (t' : TokenCredentialProvider)
             (w' : World),
        Init ctx client authObj0 ns t w = (Returned err, t', w')
        /\ (Token (Spec a) = None -> err = Some ConfigurationMissing)
  end.
Proof.
  destruct authObj0 as [a|]; [|reflexivity].
  destruct (Token (Spec a)) as [tok|] eqn:Htok.
  2:{ rewrite (Init_missing ctx client a ns t w Htok). now do 3 eexists. }
  destruct (Validate tok) as [cause|] eqn:Hvalid.
  { rewrite (Init_invalid ctx client a tok cause ns t w Htok Hvalid).
    do 3 eexists. split; [reflexivity | discriminate]. }
  rewrite (Init_valid ctx client a tok ns t w Htok Hvalid).
  destruct (readTokenFile_result w tok) as [[token [err|]] w'];
    do 3 eexists; (split; [reflexivity | discriminate]).
Qed.

(** X8. [Init] is idempotent: called again with the same arguments on
    the provider it left behind, the files unchanged, it returns the same
    result and leaves the provider as it found it. *)
Theorem Init_idempotent (ctx : Context) (client : Client)
    (authObj0 : option VaultAuth) (ns : string)
    (t t1 : TokenCredentialProvider) (w w1 w2 : World)
    (err : option error) :
  Init ctx client authObj0 ns t w = (Returned err, t1, w1) ->
  files w2 = files w ->
  exists w3 : World,
    Init ctx client authObj0 ns t1 w2 = (Returned err, t1, w3).
Proof.
  intros Hinit Hfiles. destruct authObj0 as [a|]; [|discriminate].
  destruct (Token (Spec a)) as [tok|] eqn:Htok.
  2:{ rewrite (Init_missing ctx client a ns t w Htok) in Hinit.
      injection Hinit as <- <- _.
      rewrite (Init_missing ctx client a ns t w2 Htok). now exists w2. }
  destruct (Validate tok) as [cause|] eqn:Hvalid.
  { rewrite (Init_invalid ctx client a tok cause ns t w Htok Hvalid) in Hinit.
    injection Hinit as <- <- _.
    rewrite (Init_invalid ctx client a tok cause ns t w2 Htok Hvalid).
    now exists w2. }
  rewrite (Init_valid ctx client a tok ns t w Htok Hvalid) in Hinit.
  rewrite (Init_valid ctx client a tok ns t1 w2 Htok Hvalid).
  pose proof (readTokenFile_result_files w w2 tok Hfiles) as Hsame.
  destruct (readTokenFile_result w tok) as [[token e] w'].
  destruct (readTokenFile_result w2 tok) as [[token2 e2] w2'].
  cbn [fst] in Hsame. injection Hsame as -> ->.
  destruct e as [e|]; injection Hinit as <- <- _; now exists w2'.
Qed.

Lemma Init_idempotent_witness :
  exists w3 : World,
    Init context_Background fake_Client
      (Some (token_auth "/non/existent/path")) test_namespace
      (test_provider "/non/existent/path")
      (record (EvReadFile "/non/existent/path") test_world)
    = (Returned
         (Some (FileUnreadable "/non/existent/path"
                  (PathError "open" "/non/existent/path"
                     (SyscallErrno ENOENT)))),
       test_provider "/non/existent/path", w3).
Proof.
  apply (Init_idempotent context_Background fake_Client
           (Some (token_auth "/non/existent/path")) test_namespace
           empty_provider (test_provider "/non/existent/path")
           test_world
           (record (EvReadFile "/non/existent/path") test_world)
           (record (EvReadFile "/non/existent/path") test_world)).
  - vm_compute. reflexivity.
  - reflexivity.
Defined.

(** X9. A successful [Init] overwrites the whole receiver: whatever it
    held before, it is afterwards what [NewTokenCredentialProvider]
    builds from the configuration, the namespace and the fixed
    identifier; its token configuration is not nil, and the files are
    untouched. *)
Theorem Init_binds_receiver (ctx : Context) (client : Client)
    (authObj0 : option VaultAuth) (ns : string)
    (t t' : TokenCredentialProvider) (w w' : World) :
  Init ctx client authObj0 ns t w = (Returned None, t', w') ->
  t' = NewTokenCredentialProvider authObj0 ns "token-file-provider"
  /\ is_Some (bound_token t')
  /\ files w' = files w.
Proof.
  intros Hinit.
  pose proof (Init_success ctx client authObj0 ns t w t' w' Hinit) as ->.
  split; [reflexivity|].
  destruct authObj0 as [a|]; [|discriminate].
  destruct (Token (Spec a)) as [tok|] eqn:Htok.
  2:{ rewrite (Init_missing ctx client a ns t w Htok) in Hinit.
      discriminate. }
  destruct (Validate tok) as [cause|] eqn:Hvalid.
  { rewrite (Init_invalid ctx client a tok cause ns t w Htok Hvalid) in Hinit.
    discriminate. }
  rewrite (Init_valid ctx client a tok ns t w Htok Hvalid) in Hinit.
  destruct (readTokenFile_result w tok) as [[token [err|]] w1] eqn:Hres;
    [discriminate|].
  injection Hinit as <-.
  destruct (readTokenFile_result_token w w1 tok token Hres)
    as (_ & _ & -> & _).
  split; [|reflexivity]. exists tok. exact Htok.
Qed.

Lemma Init_binds_receiver_witness :
  NewTokenCredentialProvider (Some (token_auth validTokenFile))
    test_namespace "token-file-provider"
  = NewTokenCredentialProvider (Some (token_auth validTokenFile))
      test_namespace "token-file-provider"
  /\ is_Some (bound_token
                (NewTokenCredentialProvider
                   (Some (token_auth validTokenFile)) test_namespace
                   "token-file-provider"))
  /\ files (record (EvReadFile validTokenFile) test_world)
     = files test_world.
Proof.
  apply (Init_binds_receiver context_Background fake_Client
           (Some (token_auth validTokenFile)) test_namespace
           (test_provider lockedTokenFile) _ test_world).
  vm_compute. reflexivity.
Defined.

(** ** The messages of the errors *)

(** X10. The messages of the five kinds of error differ from one
    another, whatever the file paths and the causes they mention. *)
Theorem error_messages_distinct (filePath1 filePath2 : string)
    (cause1 cause2 : error) :
  NoDup (map Error
           [ ConfigurationMissing; ConfigurationInvalid cause1;
             EmptyFilePath; FileUnreadable filePath1 cause2;
             EmptyOrWhitespaceToken filePath2 ]).
Proof.
  cbn [map].
  repeat (apply NoDup_cons_2;
          [rewrite ?not_elem_of_cons; repeat split;
           first [apply not_elem_of_nil | cbn; discriminate]|]).
  apply NoDup_nil_2.
Qed.

(** X11. The errors [Init] returns are of the five kinds and of no
    other: a missing token configuration; an invalid one, with the cause
    [Validate] gave; and, once [Validate] has passed, the three errors of
    [readTokenFile] on the configured path. *)
Theorem Init_error_kinds (ctx : Context) (client : Client) (a : VaultAuth)
    (ns : string) (t t' : TokenCredentialProvider) (w w' : World)
    (err : error) :
  Init ctx client (Some a) ns t w = (Returned (Some err), t', w') ->
  (Token (Spec a) = None /\ err = ConfigurationMissing)
  \/ exists tok : VaultAuthConfigToken,
       Token (Spec a) = Some tok
       /\ ((exists cause : error,
              Validate tok = Some cause /\ err = ConfigurationInvalid cause)
           \/ (Validate tok = None
               /\ (err = EmptyFilePath
                   \/ (exists cause : error,
                         err = FileUnreadable (FilePath tok) cause)
                   \/ err = EmptyOrWhitespaceToken (FilePath tok)))).
Proof.
  intros Hinit.
  destruct (Token (Spec a)) as [tok|] eqn:Htok.
  2:{ rewrite (Init_missing ctx client a ns t w Htok) in Hinit.
      injection Hinit as <- _ _. now left. }
  right. exists tok. split; [reflexivity|].
  destruct (Validate tok) as [cause|] eqn:Hvalid.
  { rewrite (Init_invalid ctx client a tok cause ns t w Htok Hvalid) in Hinit.
    injection Hinit as <- _ _. left. now exists cause. }
  right. split; [reflexivity|].
  rewrite (Init_valid ctx client a tok ns t w Htok Hvalid) in Hinit.
  unfold readTokenFile_result in Hinit.
  destruct (String.eqb (FilePath tok) "").
  { injection Hinit as <- _ _. now left. }
  destruct (read_file w (FilePath tok)) as [data [cause|]].
  { injection Hinit as <- _ _. right. left. now exists cause. }
  cbn zeta in Hinit. destruct (String.eqb _ ""); [|discriminate].
  injection Hinit as <- _ _. right. now right.
Qed.

Lemma Init_error_kinds_witness :
  (Token (Spec (token_auth emptyTokenFile)) = None
   /\ EmptyOrWhitespaceToken emptyTokenFile = ConfigurationMissing)
  \/ exists tok : VaultAuthConfigToken,
       Token (Spec (token_auth emptyTokenFile)) = Some tok
       /\ ((exists cause : error,
              Validate tok = Some cause
              /\ EmptyOrWhitespaceToken emptyTokenFile
                 = ConfigurationInvalid cause)
           \/ (Validate tok = None
               /\ (EmptyOrWhitespaceToken emptyTokenFile = EmptyFilePath
                   \/ (exists cause : error,
                         EmptyOrWhitespaceToken emptyTokenFile
                         = FileUnreadable (FilePath tok) cause)
                   \/ EmptyOrWhitespaceToken emptyTokenFile
                      = EmptyOrWhitespaceToken (FilePath tok)))).
Proof.
  apply (Init_error_kinds context_Background fake_Client
           (token_auth emptyTokenFile) test_namespace empty_provider
           (test_provider emptyTokenFile) test_world
           (record (EvReadFile emptyTokenFile) test_world)).
  vm_compute. reflexivity.
Defined.

(** ** White space and the token *)

Lemma GetCreds_creds (ctx : Context) (client : Client)
    (t t' : TokenCredentialProvider) (w w' : World)
    (creds : gmap string interface) (err : option error) :
  GetCreds ctx client t w = (Returned (Some creds, err), t', w') ->
  exists (tok : VaultAuthConfigToken) (data : list Byte.byte),
    bound_token t = Some tok
    /\ read_file w (FilePath tok) = (data, None)
    /\ TrimSpace (string_of_list_byte data) <> ""
    /\ creds
       = {[ "token" := iface_string (TrimSpace (string_of_list_byte data)) ]}
    /\ err = None.
Proof.
  intros Hcall.
  destruct (bound_token t) as [tok|] eqn:Hbound.
  2:{ rewrite (GetCreds_nil ctx client t w Hbound) in Hcall. discriminate. }
  rewrite (GetCreds_bound ctx client t w tok Hbound) in Hcall.
  destruct (readTokenFile_result w tok) as [[token [e|]] w1] eqn:Hres;
    [discriminate|].
  injection Hcall as <- <- _ _.
  destruct (readTokenFile_result_token w w1 tok token Hres)
    as (Htoken & _ & _ & data & Hread & ->).
  now exists tok, data.
Qed.

(** X12. [readTokenFile] on a readable file reports the file as empty
    or blank exactly when its contents are encodings of white-space
    characters and nothing else (nothing at all included), and returns a
    token exactly when they are not. *)
Theorem readTokenFile_blank_iff_white_space
    (t : TokenCredentialProvider) (w : World) (tok : VaultAuthConfigToken)
    (data : list Byte.byte) :
  bound_token t = Some tok ->
  file_contents w (FilePath tok) data ->
  (result (readTokenFile t w)
   = Returned ("", Some (EmptyOrWhitespaceToken (FilePath tok)))
   <-> white_space (string_of_list_byte data))
  /\ ((exists token : string,
         result (readTokenFile t w) = Returned (token, None))
      <-> ~ white_space (string_of_list_byte data)).
Proof.
  intros Hbound Hfile.
  rewrite (readTokenFile_of_file t w tok data Hbound Hfile). cbn zeta.
  rewrite <- TrimSpace_blank.
  destruct (String.eqb_spec (TrimSpace (string_of_list_byte data)) "")
    as [Hblank|Htoken].
  - split; [split; auto|]. split.
    + intros (token & H). discriminate.
    + intros H. contradiction.
  - split; [split; [discriminate | contradiction]|].
    split; [auto | eauto].
Qed.

Lemma readTokenFile_blank_iff_white_space_witness :
  (result (readTokenFile (test_provider whitespaceTokenFile) test_world)
   = Returned ("", Some (EmptyOrWhitespaceToken whitespaceTokenFile))
   <-> white_space ("   " +:+ LF +:+ TAB +:+ "  "))
  /\ ((exists token : string,
         result (readTokenFile (test_provider whitespaceTokenFile)
                   test_world)
         = Returned (token, None))
      <-> ~ white_space ("   " +:+ LF +:+ TAB +:+ "  ")).
Proof.
  apply (readTokenFile_blank_iff_white_space
           (test_provider whitespaceTokenFile) test_world
           {| FilePath := whitespaceTokenFile |}
           (list_byte_of_string ("   " +:+ LF +:+ TAB +:+ "  "))).
  - reflexivity.
  - split; [discriminate | vm_compute; reflexivity].
Defined.

(** X13. White space of any kind (Unicode white space included)
    around the contents of the token file changes neither the credentials
    [GetCreds] returns nor whether it returns an error; around a
    non-empty string that has no white space at either end, the
    credentials are that string. *)
Theorem GetCreds_ignores_white_space_around
    (ctx : Context) (client : Client) (t1 t2 : TokenCredentialProvider)
    (w1 w2 : World) (tok1 tok2 : VaultAuthConfigToken)
    (pre S post : string) :
  white_space pre -> white_space post ->
  bound_token t1 = Some tok1 ->
  bound_token t2 = Some tok2 ->
  file_contents w1 (FilePath tok1)
    (list_byte_of_string (pre +:+ S +:+ post)) ->
  file_contents w2 (FilePath tok2) (list_byte_of_string S) ->
  exists (creds : option (gmap string interface)) (err1 err2 : option error),
    result (GetCreds ctx client t1 w1) = Returned (creds, err1)
    /\ result (GetCreds ctx client t2 w2) = Returned (creds, err2)
    /\ (err1 = None <-> err2 = None)
    /\ (~ starts_with_space S -> ~ ends_with_space S -> S <> "" ->
        creds = Some {[ "token" := iface_string S ]}).
Proof.
  intros Hpre Hpost Hb1 Hb2 Hf1 Hf2.
  rewrite (GetCreds_of_file ctx client t1 w1 tok1 _ Hb1 Hf1).
  rewrite (GetCreds_of_file ctx client t2 w2 tok2 _ Hb2 Hf2).
  rewrite !string_of_list_byte_of_string. cbn zeta.
  rewrite (TrimSpace_surrounded pre S post Hpre Hpost).
  destruct (String.eqb_spec (TrimSpace S) "") as [Hblank|Htoken].
  - do 3 eexists. split; [reflexivity|]. split; [reflexivity|].
    split; [split; discriminate|].
    intros Hns Hne HS. rewrite (TrimSpace_fixed S Hns Hne) in Hblank.
    contradiction.
  - do 3 eexists. split; [reflexivity|]. split; [reflexivity|].
    split; [split; reflexivity|].
    intros Hns Hne _. now rewrite (TrimSpace_fixed S Hns Hne).
Qed.

Lemma wide_white_space : white_space wide_pre /\ white_space wide_post.
Proof.
  split.
  - apply (white_space_cons 0x3000 TAB eq_refl).
    apply (white_space_cons 0x09 "" eq_refl). constructor.
  - apply (white_space_cons 0xA0 LF eq_refl).
    apply (white_space_cons 0x0A "" eq_refl). constructor.
Qed.

Lemma GetCreds_ignores_white_space_around_witness :
  exists (creds : option (gmap string interface)) (err1 err2 : option error),
    result (GetCreds context_Background fake_Client
              (test_provider validTokenFile) wide_world)
    = Returned (creds, err1)
    /\ result (GetCreds context_Background fake_Client
                 (test_provider validTokenFile) test_world)
       = Returned (creds, err2)
    /\ (err1 = None <-> err2 = None)
    /\ (~ starts_with_space "vault-token-value" ->
        ~ ends_with_space "vault-token-value" ->
        "vault-token-value" <> "" ->
        creds = Some {[ "token" := iface_string "vault-token-value" ]}).
Proof.
  destruct wide_white_space as [Hpre Hpost].
  apply (GetCreds_ignores_white_space_around context_Background fake_Client
           (test_provider validTokenFile) (test_provider validTokenFile)
           wide_world test_world
           {| FilePath := validTokenFile |} {| FilePath := validTokenFile |}
           wide_pre "vault-token-value" wide_post Hpre Hpost).
  - reflexivity.
  - reflexivity.
  - split; [discriminate | vm_compute; reflexivity].
  - split; [discriminate | vm_compute; reflexivity].
Defined.

(** X14. A token [GetCreds] returned is read back unchanged: from a
    file that holds exactly that token, [GetCreds] returns the same
    credentials and no error. *)
Theorem GetCreds_token_round_trip (ctx : Context) (client : Client)
    (t t' t2 : TokenCredentialProvider) (w w' w2 : World)
    (tok2 : VaultAuthConfigToken) (token : string) :
  GetCreds ctx client t w
  = (Returned (Some {[ "token" := iface_string token ]}, None), t', w') ->
  bound_token t2 = Some tok2 ->
  file_contents w2 (FilePath tok2) (list_byte_of_string token) ->
  GetCreds ctx client t2 w2
  = (Returned (Some {[ "token" := iface_string token ]}, None), t2,
     record (EvReadFile (FilePath tok2)) w2).
Proof.
  intros Hcall Hbound Hfile.
  destruct (GetCreds_creds ctx client t t' w w' _ _ Hcall)
    as (tok & data & _ & _ & Hne & Hcreds & _).
  apply (f_equal (lookup "token")) in Hcreds.
  rewrite !lookup_singleton in Hcreds. injection Hcreds as ->.
  rewrite (GetCreds_bound ctx client t2 w2 tok2 Hbound).
  unfold readTokenFile_result.
  pose proof Hfile as [Hname _]. apply String.eqb_neq in Hname.
  rewrite Hname, (read_file_contents _ _ _ Hfile). cbn zeta.
  rewrite string_of_list_byte_of_string, TrimSpace_idempotent.
  apply String.eqb_neq in Hne. now rewrite Hne.
Qed.

Lemma GetCreds_token_round_trip_witness :
  GetCreds context_Background fake_Client (test_provider validTokenFile)
    test_world
  = (Returned (Some {[ "token" := iface_string "vault-token-value" ]}, None),
     test_provider validTokenFile,
     record (EvReadFile validTokenFile) test_world).
Proof.
  apply (GetCreds_token_round_trip context_Background fake_Client
           (test_provider tokenWithWhitespaceFile)
           (test_provider tokenWithWhitespaceFile)
           (test_provider validTokenFile)
           test_world (record (EvReadFile tokenWithWhitespaceFile) test_world)
           test_world {| FilePath := validTokenFile |} "vault-token-value").
  - vm_compute. reflexivity.
  - reflexivity.
  - split; [discriminate | vm_compute; reflexivity].
Defined.

(** ** The key of the credential *)

(** X15. The one key of the credentials [GetCreds] returns is
    [consts.ProviderSecretKeyToken]; the keys of the AppRole and JWT
    secrets are absent. *)
Theorem GetCreds_key (ctx : Context) (client : Client)
    (t t' : TokenCredentialProvider) (w w' : World)
    (creds : gmap string interface) (err : option error) :
  GetCreds ctx client t w = (Returned (Some creds, err), t', w') ->
  is_Some (creds !! Consts.ProviderSecretKeyToken)
  /\ creds !! Consts.ProviderSecretKeyAppRole = None
  /\ creds !! Consts.ProviderSecretKeyJWT = None
  /\ dom creds = {[ Consts.ProviderSecretKeyToken ]}.
Proof.
  intros Hcall.
  destruct (GetCreds_creds ctx client t t' w w' _ _ Hcall)
    as (tok & data & _ & _ & _ & -> & _).
  unfold Consts.ProviderSecretKeyToken, Consts.ProviderSecretKeyAppRole,
    Consts.ProviderSecretKeyJWT.
  split; [rewrite lookup_singleton; eauto|].
  split; [now apply lookup_singleton_ne|].
  split; [now apply lookup_singleton_ne|].
  apply dom_singleton_L.
Qed.

Lemma GetCreds_key_witness :
  is_Some (({[ "token" := iface_string "vault-token-value" ]}
            : gmap string interface) !! Consts.ProviderSecretKeyToken)
  /\ ({[ "token" := iface_string "vault-token-value" ]}
      : gmap string interface) !! Consts.ProviderSecretKeyAppRole = None
  /\ ({[ "token" := iface_string "vault-token-value" ]}
      : gmap string interface) !! Consts.ProviderSecretKeyJWT = None
  /\ dom ({[ "token" := iface_string "vault-token-value" ]}
          : gmap string interface)
     = {[ Consts.ProviderSecretKeyToken ]}.
Proof.
  apply (GetCreds_key context_Background fake_Client
           (test_provider validTokenFile) (test_provider validTokenFile)
           test_world (record (EvReadFile validTokenFile) test_world)
           _ None).
  vm_compute. reflexivity.
Defined.
